(** * nfsgetattrcache: a time-bounded cache in front of NFS getattr

    A shallow embedding of [nfsgetattrcache.c].  The module keeps a linked
    list of cache entries (path, kstat, timestamp), two atomic counters, and
    replaces the [getattr] inode operation by [cached_getattr], which serves
    fresh entries from the list and otherwise calls the original operation.
    A delayed work item runs [cleanup_cache] to drop expired entries.

    Kernel services the file only uses ([d_path], [msecs_to_jiffies], the
    original [getattr], [struct kstat], the width of [unsigned long]) are
    collected in the class [Kernel]. *)

From Stdlib Require Import ZArith List Bool Ascii String Lia.
Import ListNotations.
Open Scope Z_scope.

(** ** C strings

    A [string] stands for the bytes of a NUL-terminated C string before its
    terminator.  Reading past the last character yields the terminator. *)
Module CString.

Definition NUL : ascii := Ascii.zero.

Definition uchar (c : ascii) : Z := Z.of_N (N_of_ascii c).

(** [*s] *)
Definition peek (s : string) : ascii :=
  match s with
  | EmptyString => NUL
  | String c _ => c
  end.

(** [s + 1], for a pointer that is not at the terminator *)
Definition advance (s : string) : string :=
  match s with
  | EmptyString => EmptyString
  | String _ t => t
  end.

Fixpoint strlen (s : string) : nat :=
  match s with
  | EmptyString => O
  | String c t => if Ascii.eqb c NUL then O else S (strlen t)
  end.

Fixpoint strncmp (s1 s2 : string) (n : nat) : Z :=
  match n with
  | O => 0
  | S n' =>
      let c1 := peek s1 in
      let c2 := peek s2 in
      if negb (Ascii.eqb c1 c2) then uchar c1 - uchar c2
      else if Ascii.eqb c1 NUL then 0
      else strncmp (advance s1) (advance s2) n'
  end.

Fixpoint strcmp (s1 s2 : string) : Z :=
  match s1 with
  | EmptyString => uchar NUL - uchar (peek s2)
  | String c1 t1 =>
      let c2 := peek s2 in
      if negb (Ascii.eqb c1 c2) then uchar c1 - uchar c2
      else if Ascii.eqb c1 NUL then 0
      else strcmp t1 (advance s2)
  end.

(** The C string left in [dst] by [strncpy(dst, src, n); dst[n] = 0]. *)
Fixpoint strncpy (src : string) (n : nat) : string :=
  match n with
  | O => EmptyString
  | S n' =>
      match src with
      | EmptyString => EmptyString
      | String c t =>
          if Ascii.eqb c NUL then EmptyString else String c (strncpy t n')
      end
  end.

(** Well-formed C string contents: no embedded terminator. *)
Fixpoint no_nul (s : string) : bool :=
  match s with
  | EmptyString => true
  | String c t => negb (Ascii.eqb c NUL) && no_nul t
  end.

End CString.
Import CString.

(** ** Configuration *)

Definition CACHE_TIMEOUT_MS : Z := 1000.
Definition CLEANUP_INTERVAL_MS : Z := 5000.
Definition MAX_PATH_LEN : Z := 256.
Definition EINVAL : Z := 22.

Definition cached_paths : list string := ["/tmp/nfs"%string].

(** The [for] loop of [should_cache_path], over the prefixes not yet tried. *)
Fixpoint should_cache_loop (prefixes : list string) (path : string) : bool :=
  match prefixes with
  | [] => false
  | p :: rest =>
      if strncmp path p (strlen p) =? 0 then true
      else should_cache_loop rest path
  end.

Definition should_cache_path (path : string) : bool :=
  should_cache_loop cached_paths path.

(** ** Kernel interface *)

(** [struct path]: two pointers, either of which may be NULL. *)
Record struct_path : Type := mk_path {
  mnt : option Z;
  dentry : option Z
}.

Class Kernel : Type := {
  (** [struct kstat], copied as a whole by [memcpy] *)
  kstat : Type;
  (** whatever the original [getattr] reads and changes *)
  world : Type;
  (** width of [unsigned long], the type of [jiffies] *)
  BITS_PER_LONG : Z;
  msecs_to_jiffies : Z -> Z;
  (** [d_path]: the path string placed in the buffer, or an errno *)
  d_path : struct_path -> Z -> string + Z;
  (** [original_iops->getattr]: new world, return code, contents of [*stat] *)
  original_getattr :
    world -> Z -> struct_path -> kstat -> Z -> Z -> world * Z * kstat;

  BITS_PER_LONG_pos : 0 < BITS_PER_LONG;
  msecs_to_jiffies_range :
    forall m, 0 <= msecs_to_jiffies m < 2 ^ BITS_PER_LONG;
  (** a string returned by [d_path] lies, with its terminator, in the buffer *)
  d_path_fits :
    forall p buflen s, d_path p buflen = inl s ->
      no_nul s = true /\ Z.of_nat (String.length s) < buflen
}.

(** 32-bit [int] as used by [atomic_t]: two's-complement wrap-around. *)
Definition wrap_int (v : Z) : Z := (v + 2 ^ 31) mod 2 ^ 32 - 2 ^ 31.

Definition atomic_inc (v : Z) : Z := wrap_int (v + 1).

Section Cache.

Context {K : Kernel}.

(** [unsigned long] arithmetic *)
Definition ulong (v : Z) : Z := v mod 2 ^ BITS_PER_LONG.

Definition ulong_sub (a b : Z) : Z := ulong (a - b).

Record getattr_cache_entry : Type := mk_entry {
  entry_path : string;
  entry_stat : kstat;
  entry_timestamp : Z
}.

(** One invocation of the original [getattr], as recorded in the log. *)
Record provider_call : Type := mk_call {
  call_user_ns : Z;
  call_path : struct_path;
  call_request_mask : Z;
  call_query_flags : Z
}.

(** The module's globals, the world behind the original operation, and a
    log of the calls made to the original operation. *)
Record state : Type := mk_state {
  cache_list : list getattr_cache_entry;
  cache_hits : Z;
  cache_misses : Z;
  fs : world;
  provider_log : list provider_call
}.

Definition set_cache_list (l : list getattr_cache_entry) (s : state) : state :=
  mk_state l (cache_hits s) (cache_misses s) (fs s) (provider_log s).

Definition set_cache_hits (h : Z) (s : state) : state :=
  mk_state (cache_list s) h (cache_misses s) (fs s) (provider_log s).

Definition set_cache_misses (m : Z) (s : state) : state :=
  mk_state (cache_list s) (cache_hits s) m (fs s) (provider_log s).

Definition TTL : Z := msecs_to_jiffies CACHE_TIMEOUT_MS.

(** [now - entry->timestamp] *)
Definition age (now : Z) (entry : getattr_cache_entry) : Z :=
  ulong_sub now (entry_timestamp entry).

Definition get_full_path (path : struct_path) (buflen : Z) : option string :=
  match d_path path buflen with
  | inr _ => None
  | inl ret => Some ret
  end.

(** [list_add]: insertion right after the list head. *)
Definition list_add (entry : getattr_cache_entry)
    (head : list getattr_cache_entry) : list getattr_cache_entry :=
  entry :: head.

(** The [list_for_each_entry_safe] loop of [cleanup_cache]. *)
Fixpoint cleanup_loop (now : Z) (l : list getattr_cache_entry)
    : list getattr_cache_entry :=
  match l with
  | [] => []
  | entry :: tmp =>
      if age now entry >=? TTL
      then cleanup_loop now tmp            (* list_del; kfree *)
      else entry :: cleanup_loop now tmp
  end.

Definition cleanup_cache (jiffies : Z) (s : state) : state :=
  let now := jiffies in
  set_cache_list (cleanup_loop now (cache_list s)) s.

(** The condition of the [if] inside the lookup loop. *)
Definition entry_hit (now : Z) (fullpath : string)
    (entry : getattr_cache_entry) : bool :=
  (strcmp (entry_path entry) fullpath =? 0) && (age now entry <? TTL).

(** The [list_for_each_entry] loop of [cached_getattr]: the kstat of the
    entry it returns on, or [None] when it runs off the end. *)
Fixpoint lookup_loop (now : Z) (fullpath : string)
    (l : list getattr_cache_entry) : option kstat :=
  match l with
  | [] => None
  | entry :: rest =>
      if entry_hit now fullpath entry then Some (entry_stat entry)
      else lookup_loop now fullpath rest
  end.

Definition call_original (user_ns : Z) (path : struct_path) (stat : kstat)
    (request_mask query_flags : Z) (s : state) : state * Z * kstat :=
  let '(w, ret, st) :=
    original_getattr (fs s) user_ns path stat request_mask query_flags in
  (mk_state (cache_list s) (cache_hits s) (cache_misses s) w
     (provider_log s ++ [mk_call user_ns path request_mask query_flags]),
   ret, st).

(** [cached_getattr].  [jiffies] is the value read on entry and [kmalloc]
    tells whether the allocation succeeds if it is attempted.  The result
    is the new state, the return code and the contents of [*stat]
    ([None] for a NULL [stat]). *)
Definition cached_getattr (jiffies : Z) (kmalloc : bool) (user_ns : Z)
    (path : option struct_path) (stat : option kstat)
    (request_mask query_flags : Z) (s : state)
    : state * Z * option kstat :=
  let now := jiffies in
  match path, stat with
  | Some p, Some buf =>
      match dentry p with
      | None => (s, - EINVAL, stat)
      | Some _ =>
          match get_full_path p MAX_PATH_LEN with
          | None =>
              let '(s', ret, st) :=
                call_original user_ns p buf request_mask query_flags s in
              (s', ret, Some st)
          | Some fullpath =>
              if negb (should_cache_path fullpath) then
                let '(s', ret, st) :=
                  call_original user_ns p buf request_mask query_flags s in
                (s', ret, Some st)
              else
                match lookup_loop now fullpath (cache_list s) with
                | Some cached =>
                    (set_cache_hits (atomic_inc (cache_hits s)) s,
                     0, Some cached)
                | None =>
                    let s1 :=
                      set_cache_misses (atomic_inc (cache_misses s)) s in
                    let '(s2, ret, st) :=
                      call_original user_ns p buf request_mask query_flags s1 in
                    if negb (ret =? 0) then (s2, ret, Some st)
                    else if negb kmalloc then (s2, ret, Some st)
                    else
                      let entry :=
                        mk_entry
                          (strncpy fullpath (Z.to_nat (MAX_PATH_LEN - 1)))
                          st now in
                      (set_cache_list (list_add entry (cache_list s2)) s2,
                       ret, Some st)
                end
          end
      end
  | _, _ => (s, - EINVAL, stat)
  end.

(** Components of a result of [cached_getattr] or of the original. *)
Definition state_of {S A : Type} (r : S * Z * A) : S := fst (fst r).
Definition ret_of {S A : Type} (r : S * Z * A) : Z := snd (fst r).
Definition stat_of {S A : Type} (r : S * Z * A) : A := snd r.

(** The state left by one call of the original operation that ends in
    world [w]: only the world and the log differ. *)
Definition after_original (w : world) (c : provider_call) (s : state) : state :=
  mk_state (cache_list s) (cache_hits s) (cache_misses s) w
    (provider_log s ++ [c]).

(** What [cached_getattr] returns when it hands the call to the original
    operation and does nothing else. *)
Definition delegated (user_ns : Z) (p : struct_path) (buf : kstat)
    (request_mask query_flags : Z) (s : state)
    : state * Z * option kstat :=
  let r := original_getattr (fs s) user_ns p buf request_mask query_flags in
  (after_original (state_of r)
     (mk_call user_ns p request_mask query_flags) s,
   ret_of r, Some (stat_of r)).

(** Every path held in the store is a C string without an embedded
    terminator. *)
Definition store_wf (l : list getattr_cache_entry) : Prop :=
  Forall (fun e => no_nul (entry_path e) = true) l.

(** The entries the lookup loop would accept at time [now]. *)
Definition fresh (now : Z) (entry : getattr_cache_entry) : bool :=
  age now entry <? TTL.

(** [e] is in the store and no entry scanned before it carries the path
    [fullpath]. *)
Definition served_first (fullpath : string) (e : getattr_cache_entry)
    (l : list getattr_cache_entry) : Prop :=
  exists pre post,
    l = pre ++ e :: post
    /\ Forall (fun e' => strcmp (entry_path e') fullpath <> 0) pre.

(** How many entries the lookup loop would accept at time [now]. *)
Fixpoint count_fresh (now : Z) (l : list getattr_cache_entry) : nat :=
  match l with
  | [] => O
  | entry :: rest =>
      if age now entry <? TTL then S (count_fresh now rest)
      else count_fresh now rest
  end.

(** What a caller and the original operation can observe of a call: return
    code, [*stat], both counters, the world and the log.  The store itself
    is left out. *)
Definition observable (res : state * Z * option kstat)
    : Z * option kstat * Z * Z * world * list provider_call :=
  (ret_of res, stat_of res, cache_hits (state_of res),
   cache_misses (state_of res), fs (state_of res),
   provider_log (state_of res)).

(** An entry as [cached_getattr] writes it: its path is eligible and lies,
    with its terminator, in the [char path[MAX_PATH_LEN]] field. *)
Definition entry_ok (e : getattr_cache_entry) : Prop :=
  should_cache_path (entry_path e) = true
  /\ no_nul (entry_path e) = true
  /\ Z.of_nat (String.length (entry_path e)) < MAX_PATH_LEN.

(** ** The three stretches of [cached_getattr]

    [cached_getattr] holds [cache_lock] while it scans the list and again
    while it adds the new entry; the call of the original operation lies
    between the two, outside the lock.  Other requests and the sweep can
    run between the stretches. *)

(** The locals a request carries from the scan to the insertion. *)
Record request : Type := mk_request {
  rq_now : Z;
  rq_user_ns : Z;
  rq_path : struct_path;
  rq_fullpath : string;
  rq_buf : kstat;
  rq_request_mask : Z;
  rq_query_flags : Z
}.

Inductive progress : Type :=
| Returned (ret : Z) (stat : option kstat)
| Missed (rq : request)
| Fetched (rq : request) (st : kstat).

(** Up to the [spin_unlock] after the scan. *)
Definition lookup_phase (jiffies : Z) (user_ns : Z)
    (path : option struct_path) (stat : option kstat)
    (request_mask query_flags : Z) (s : state) : state * progress :=
  let now := jiffies in
  match path, stat with
  | Some p, Some buf =>
      match dentry p with
      | None => (s, Returned (- EINVAL) stat)
      | Some _ =>
          match get_full_path p MAX_PATH_LEN with
          | None =>
              let '(s', ret, st) :=
                call_original user_ns p buf request_mask query_flags s in
              (s', Returned ret (Some st))
          | Some fullpath =>
              if negb (should_cache_path fullpath) then
                let '(s', ret, st) :=
                  call_original user_ns p buf request_mask query_flags s in
                (s', Returned ret (Some st))
              else
                match lookup_loop now fullpath (cache_list s) with
                | Some cached =>
                    (set_cache_hits (atomic_inc (cache_hits s)) s,
                     Returned 0 (Some cached))
                | None =>
                    (s, Missed (mk_request now user_ns p fullpath buf
                                  request_mask query_flags))
                end
          end
      end
  | _, _ => (s, Returned (- EINVAL) stat)
  end.

(** From [atomic_inc(&cache_misses)] to the test of [ret]. *)
Definition fetch_phase (rq : request) (s : state) : state * progress :=
  let s1 := set_cache_misses (atomic_inc (cache_misses s)) s in
  let '(s2, ret, st) :=
    call_original (rq_user_ns rq) (rq_path rq) (rq_buf rq)
      (rq_request_mask rq) (rq_query_flags rq) s1 in
  if negb (ret =? 0) then (s2, Returned ret (Some st))
  else (s2, Fetched rq st).

(** From [kmalloc] to the final [return ret], where [ret] is 0. *)
Definition insert_phase (kmalloc : bool) (rq : request) (st : kstat)
    (s : state) : state * progress :=
  if negb kmalloc then (s, Returned 0 (Some st))
  else
    let entry :=
      mk_entry (strncpy (rq_fullpath rq) (Z.to_nat (MAX_PATH_LEN - 1)))
        st (rq_now rq) in
    (set_cache_list (list_add entry (cache_list s)) s, Returned 0 (Some st)).

(** The next stretch of a request, if it has not returned. *)
Definition advance_request (kmalloc : bool) (sp : state * progress)
    : state * progress :=
  match snd sp with
  | Returned _ _ => sp
  | Missed rq => fetch_phase rq (fst sp)
  | Fetched rq st => insert_phase kmalloc rq st (fst sp)
  end.

(** ** Runs: requests and sweeps one after the other *)

Inductive event : Type :=
| Getattr (jiffies : Z) (kmalloc : bool) (user_ns : Z)
    (path : option struct_path) (stat : option kstat)
    (request_mask query_flags : Z)
| Cleanup (jiffies : Z).

Definition event_time (ev : event) : Z :=
  match ev with
  | Getattr j _ _ _ _ _ _ => j
  | Cleanup j => j
  end.

Definition step (s : state) (ev : event) : state :=
  match ev with
  | Getattr j km ns p st rm qf =>
      fst (fst (cached_getattr j km ns p st rm qf s))
  | Cleanup j => cleanup_cache j s
  end.

Definition run (evs : list event) (s : state) : state :=
  fold_left step evs s.

(** [j] is the value of [jiffies] at some time in [[T, T + TTL)]. *)
Definition in_window (T j : Z) : Prop :=
  exists d, 0 <= d < TTL /\ j = ulong (T + d).

Definition count_getattr (evs : list event) : nat :=
  List.length
    (filter (fun ev => match ev with Getattr _ _ _ _ _ _ _ => true
                                   | Cleanup _ => false end) evs).

End Cache.

(** ** Loading and unloading the module *)

Definition ENOMEM : Z := 12.

(** The kernel objects that [getattr_cache_init] and [getattr_cache_exit]
    walk: name resolution, and the pointers from a dentry to its superblock
    and to its inode and from a superblock to its root dentry.  Dentries,
    superblocks and inodes are named by numbers; [None] is a NULL pointer.
    [kern_path] gives the dentry of the path it found, or its nonzero
    return code. *)
Record Vfs : Type := mk_vfs {
  kern_path : string -> Z + Z;
  d_sb : Z -> option Z;
  s_root : Z -> option Z;
  d_inode : Z -> option Z;
  kern_path_errno : forall name e, kern_path name = inr e -> e <> 0
}.

(** What an [i_op] pointer can hold: the address of this module's
    [cached_iops] or that of an operations table of the kernel. *)
Inductive iops_ptr : Type :=
| cached_iops_addr
| kernel_iops (id : Z).

(** [cleanup_workqueue]: NULL, a live queue, or a pointer to a queue that
    [destroy_workqueue] has released. *)
Inductive workqueue : Type :=
| wq_null
| wq_live
| wq_destroyed.

Section Lifecycle.

Context {K : Kernel}.

(** All globals of the module, and the [i_op] field of every inode.
    [cached_iops] holds the table whose operations other than [getattr]
    the module's table was copied from; [cleanup_work] holds the delay the
    work is queued with while it is pending. *)
Record module : Type := mk_module {
  core : state;
  nfs_sb : option Z;
  original_iops : option iops_ptr;
  cached_iops : option iops_ptr;
  cleanup_workqueue : workqueue;
  cleanup_work : option Z;
  i_op : Z -> option iops_ptr
}.

Definition set_core (c : state) (m : module) : module :=
  mk_module c (nfs_sb m) (original_iops m) (cached_iops m)
    (cleanup_workqueue m) (cleanup_work m) (i_op m).

Definition set_nfs_sb (sb : option Z) (m : module) : module :=
  mk_module (core m) sb (original_iops m) (cached_iops m)
    (cleanup_workqueue m) (cleanup_work m) (i_op m).

Definition set_original_iops (o : option iops_ptr) (m : module) : module :=
  mk_module (core m) (nfs_sb m) o (cached_iops m)
    (cleanup_workqueue m) (cleanup_work m) (i_op m).

Definition set_cached_iops (o : option iops_ptr) (m : module) : module :=
  mk_module (core m) (nfs_sb m) (original_iops m) o
    (cleanup_workqueue m) (cleanup_work m) (i_op m).

Definition set_cleanup_workqueue (w : workqueue) (m : module) : module :=
  mk_module (core m) (nfs_sb m) (original_iops m) (cached_iops m)
    w (cleanup_work m) (i_op m).

Definition set_cleanup_work (w : option Z) (m : module) : module :=
  mk_module (core m) (nfs_sb m) (original_iops m) (cached_iops m)
    (cleanup_workqueue m) w (i_op m).

Definition set_i_op (f : Z -> option iops_ptr) (m : module) : module :=
  mk_module (core m) (nfs_sb m) (original_iops m) (cached_iops m)
    (cleanup_workqueue m) (cleanup_work m) f.

(** [inode->i_op = v] *)
Definition store_i_op (inode : Z) (v : option iops_ptr)
    (f : Z -> option iops_ptr) : Z -> option iops_ptr :=
  fun i => if i =? inode then v else f i.

(** [sb->s_root->d_inode], or [None] where the source's test
    [!sb || !sb->s_root || !sb->s_root->d_inode] holds. *)
Definition root_inode (V : Vfs) (sb : option Z) : option Z :=
  match sb with
  | None => None
  | Some b =>
      match s_root V b with
      | None => None
      | Some d => d_inode V d
      end
  end.

(** [queue_delayed_work]: no effect on work that is already pending. *)
Definition queue_delayed_work (delay : Z) (m : module) : module :=
  match cleanup_work m with
  | Some _ => m
  | None => set_cleanup_work (Some delay) m
  end.

(** The loop of [getattr_cache_init] over [cached_paths]. *)
Fixpoint hook_loop (V : Vfs) (paths : list string)
    (f : Z -> option iops_ptr) : Z -> option iops_ptr :=
  match paths with
  | [] => f
  | name :: rest =>
      let f' :=
        match kern_path V name with
        | inr _ => f
        | inl dentry =>
            match d_inode V dentry with
            | None => f
            | Some inode => store_i_op inode (Some cached_iops_addr) f
            end
        end in
      hook_loop V rest f'
  end.

(** [getattr_cache_init].  [create_workqueue] tells whether
    [create_singlethread_workqueue] succeeds if it is called. *)
Definition getattr_cache_init (V : Vfs) (create_workqueue : bool)
    (m : module) : module * Z :=
  match kern_path V "/codebase" with
  | inr ret => (m, ret)
  | inl dentry =>
      let m1 := set_nfs_sb (d_sb V dentry) m in
      match root_inode V (nfs_sb m1) with
      | None => (m1, - EINVAL)
      | Some root =>
          if negb create_workqueue
          then (set_cleanup_workqueue wq_null m1, - ENOMEM)
          else
            let m2 := set_cleanup_workqueue wq_live m1 in
            let m3 := set_original_iops (i_op m2 root) m2 in
            match original_iops m3 with
            | None => (set_cleanup_workqueue wq_destroyed m3, - EINVAL)
            | Some _ =>
                let m4 := set_cached_iops (original_iops m3) m3 in
                let m5 := set_i_op (hook_loop V cached_paths (i_op m4)) m4 in
                let m6 :=
                  set_i_op (store_i_op root (Some cached_iops_addr) (i_op m5))
                    m5 in
                (* INIT_DELAYED_WORK *)
                let m7 := set_cleanup_work None m6 in
                (queue_delayed_work (msecs_to_jiffies CLEANUP_INTERVAL_MS) m7,
                 0)
            end
      end
  end.

(** [cleanup_worker], with the value [jiffies] has inside
    [cleanup_cache]. *)
Definition cleanup_worker (jiffies : Z) (m : module) : module :=
  queue_delayed_work (msecs_to_jiffies CLEANUP_INTERVAL_MS)
    (set_core (cleanup_cache jiffies (core m)) m).

(** The workqueue runs the work if it is pending, and the work is no
    longer pending while its function runs. *)
Definition run_cleanup_work (jiffies : Z) (m : module) : module :=
  match cleanup_work m with
  | None => m
  | Some _ => cleanup_worker jiffies (set_cleanup_work None m)
  end.

(** The [list_for_each_entry_safe] loop of [getattr_cache_exit]. *)
Fixpoint exit_loop (l : list getattr_cache_entry)
    : list getattr_cache_entry :=
  match l with
  | [] => []
  | entry :: tmp => exit_loop tmp     (* list_del; kfree *)
  end.

(** [getattr_cache_exit] *)
Definition getattr_cache_exit (V : Vfs) (m : module) : module :=
  let m1 :=
    match cleanup_workqueue m with
    | wq_null => m
    | _ => set_cleanup_workqueue wq_destroyed (set_cleanup_work None m)
    end in
  let m2 :=
    match root_inode V (nfs_sb m1), original_iops m1 with
    | Some root, Some orig =>
        set_i_op (store_i_op root (Some orig) (i_op m1)) m1
    | _, _ => m1
    end in
  set_core (set_cache_list (exit_loop (cache_list (core m2))) (core m2)) m2.

(** Requests and timer expiries while the module is loaded. *)
Definition module_step (m : module) (ev : event) : module :=
  match ev with
  | Getattr j km ns p st rm qf =>
      set_core (state_of (cached_getattr j km ns p st rm qf (core m))) m
  | Cleanup j => run_cleanup_work j m
  end.

Definition module_run (evs : list event) (m : module) : module :=
  fold_left module_step evs m.

(** The globals as their initialisers leave them. *)
Definition unloaded (w : world) (f : Z -> option iops_ptr) : module :=
  mk_module (mk_state [] 0 0 w []) None None None wq_null None f.

(** The inodes of the configured paths that resolve. *)
Definition hooked_by_path (V : Vfs) (inode : Z) : Prop :=
  exists name dentry,
    In name cached_paths
    /\ kern_path V name = inl dentry
    /\ d_inode V dentry = Some inode.

End Lifecycle.

(** ** A concrete kernel

    A 64-bit kernel with [HZ = 1000].  Dentry 1 is [/tmp/nfs/a], dentry 2 is
    [/tmp/nfsother], dentry 3 is [/home/u], dentry 4 has a path too long for
    any buffer, dentry 5 is [/tmp/nfs/gone].  The world counts the calls
    to the original [getattr], which fails with [-ENOENT] on dentry 5 and
    otherwise answers with a kstat that depends on the count. *)
Module Demo.

Definition path_of_dentry (p : struct_path) : string :=
  match dentry p with
  | Some 1 => "/tmp/nfs/a"
  | Some 2 => "/tmp/nfsother"
  | Some 3 => "/home/u"
  | Some 5 => "/tmp/nfs/gone"
  | _ => "/"
  end.

Definition d_path (p : struct_path) (buflen : Z) : string + Z :=
  match dentry p with
  | Some 4 => inr (-36)
  | _ =>
      let s := path_of_dentry p in
      if no_nul s && (Z.of_nat (String.length s) <? buflen)
      then inl s else inr (-36)
  end.

Definition msecs_to_jiffies (m : Z) : Z :=
  Z.max 0 (Z.min m (2 ^ 62 - 1)).

Definition original_getattr (w : Z) (user_ns : Z) (p : struct_path)
    (stat : Z) (request_mask query_flags : Z) : Z * Z * Z :=
  match dentry p with
  | Some 5 => (w + 1, -2, stat)
  | _ => (w + 1, 0, 100 + w)
  end.

Lemma msecs_to_jiffies_range (m : Z) : 0 <= msecs_to_jiffies m < 2 ^ 64.
Proof. unfold msecs_to_jiffies. lia. Qed.

Lemma d_path_fits (p : struct_path) (buflen : Z) (s : string) :
  d_path p buflen = inl s ->
  no_nul s = true /\ Z.of_nat (String.length s) < buflen.
Proof.
  unfold d_path. intros H.
  assert (E : (if no_nul (path_of_dentry p)
                    && (Z.of_nat (String.length (path_of_dentry p)) <? buflen)
               then inl (path_of_dentry p) else inr (-36)) = inl s).
  { destruct (dentry p) as [[|[ [|[]|] | [|[]|] | ]|]|];
      try exact H; discriminate H. }
  destruct (no_nul (path_of_dentry p)) eqn:E1; [|discriminate E].
  destruct (Z.of_nat (String.length (path_of_dentry p)) <? buflen) eqn:E2;
    [|discriminate E].
  simpl in E. injection E as <-. split; [exact E1 | now apply Z.ltb_lt].
Qed.

#[export] Instance kernel : Kernel :=
  Build_Kernel Z Z 64 msecs_to_jiffies d_path original_getattr
    eq_refl msecs_to_jiffies_range d_path_fits.

Definition empty_state : state := mk_state [] 0 0 0 [].

(** Dentries by the path they resolve to. *)
Definition nfs_a : struct_path := mk_path (Some 0) (Some 1).
Definition nfsother : struct_path := mk_path (Some 0) (Some 2).
Definition home_u : struct_path := mk_path (Some 0) (Some 3).
Definition too_long : struct_path := mk_path (Some 0) (Some 4).
Definition vanished : struct_path := mk_path (Some 0) (Some 5).

(** A store with two entries for one path, the one scanned first being
    older than the other by 1100 jiffies. *)
Definition two_for_a : list getattr_cache_entry :=
  [ mk_entry "/tmp/nfs/b" 7 1150;
    mk_entry "/tmp/nfs/a" 100 0;
    mk_entry "/tmp/nfs/a" 101 1100 ].

Definition with_two_for_a : state := mk_state two_for_a 3 4 2 [].

(** The state after a first request for [/tmp/nfs/a] at time 0. *)
Definition after_first : state :=
  state_of
    (cached_getattr 0 true 7 (Some nfs_a) (Some 0) 1 0 empty_state).

(** Requests and a sweep within one second of the first request. *)
Definition busy_second : list event :=
  [ Getattr 100 true 7 (Some nfsother) (Some 0) 1 0;
    Getattr 200 true 7 (Some nfs_a) (Some 0) 1 0;
    Cleanup 300;
    Getattr 400 false 7 (Some vanished) (Some 0) 1 0 ].

(** A mount whose root is inode 100, with [/tmp/nfs] at inode 200; the
    paths [/codebase] and [/tmp/nfs] resolve, nothing else does. *)
Definition vfs_kern_path (name : string) : Z + Z :=
  if String.eqb name "/codebase" then inl 10
  else if String.eqb name "/tmp/nfs" then inl 20
  else inr (-2).

Lemma vfs_kern_path_errno (name : string) (e : Z) :
  vfs_kern_path name = inr e -> e <> 0.
Proof.
  unfold vfs_kern_path.
  destruct (String.eqb name "/codebase"); [discriminate|].
  destruct (String.eqb name "/tmp/nfs"); [discriminate|].
  intros H. injection H as <-. discriminate.
Qed.

Definition vfs : Vfs :=
  mk_vfs vfs_kern_path
    (fun d => if d =? 10 then Some 1 else None)
    (fun sb => if sb =? 1 then Some 11 else None)
    (fun d => if d =? 11 then Some 100
              else if d =? 20 then Some 200
              else if d =? 10 then Some 110 else None)
    vfs_kern_path_errno.

Definition kernel_tables (inode : Z) : option iops_ptr :=
  if inode =? 100 then Some (kernel_iops 1)
  else if inode =? 200 then Some (kernel_iops 2)
  else if inode =? 110 then Some (kernel_iops 3)
  else None.

Definition at_boot : module := unloaded 0 kernel_tables.

(** A store whose entries were made at 0 and at 900. *)
Definition aged_store : state :=
  mk_state
    [ mk_entry "/tmp/nfs/b" 8 900; mk_entry "/tmp/nfs/a" 100 0 ]
    0 2 2 [].

End Demo.

(** ** Facts about the C string functions *)

Lemma uchar_diff_zero (c1 c2 : ascii) : uchar c1 - uchar c2 = 0 -> c1 = c2.
Proof.
  unfold uchar; intros H.
  assert (E : N_of_ascii c1 = N_of_ascii c2) by lia.
  rewrite <- (ascii_N_embedding c1), <- (ascii_N_embedding c2).
  now rewrite E.
Qed.

Lemma uchar_diff_neq (c1 c2 : ascii) :
  Ascii.eqb c1 c2 = false -> uchar c1 - uchar c2 <> 0.
Proof.
  intros H E. apply uchar_diff_zero in E.
  apply Ascii.eqb_neq in H. contradiction.
Qed.

Lemma strcmp_refl (s : string) : strcmp s s = 0.
Proof.
  induction s as [|c t IH]; simpl; [reflexivity|].
  rewrite Ascii.eqb_refl; simpl.
  destruct (Ascii.eqb c NUL); [reflexivity | exact IH].
Qed.

Lemma strcmp_eq (s1 s2 : string) :
  no_nul s1 = true -> no_nul s2 = true ->
  (strcmp s1 s2 = 0 <-> s1 = s2).
Proof.
  intros H1 H2; split; [| intros ->; apply strcmp_refl].
  revert s2 H2; induction s1 as [|c1 t1 IH]; intros [|c2 t2] H2; simpl in *.
  - reflexivity.
  - apply andb_prop in H2 as [Hc _]. intros E.
    change (uchar NUL - uchar c2 = 0) in E.
    apply uchar_diff_zero in E. subst c2.
    unfold NUL in Hc. rewrite Ascii.eqb_refl in Hc. discriminate.
  - apply andb_prop in H1 as [Hc _].
    apply negb_true_iff in Hc. rewrite Hc; simpl. intros E.
    exfalso. revert E. apply uchar_diff_neq. exact Hc.
  - apply andb_prop in H1 as [Hc1 Ht1]. apply andb_prop in H2 as [_ Ht2].
    apply negb_true_iff in Hc1.
    destruct (Ascii.eqb c1 c2) eqn:Ec; simpl.
    + apply Ascii.eqb_eq in Ec; subst c2. rewrite Hc1.
      intros E. f_equal. now apply IH.
    + intros E. exfalso. revert E. now apply uchar_diff_neq.
Qed.

Lemma strncpy_fits (s : string) (n : nat) :
  no_nul s = true -> (String.length s <= n)%nat -> strncpy s n = s.
Proof.
  revert n; induction s as [|c t IH]; intros n Hs Hn.
  - destruct n; reflexivity.
  - simpl in Hs, Hn. apply andb_prop in Hs as [Hc Ht].
    apply negb_true_iff in Hc.
    destruct n as [|n]; [lia|].
    simpl. rewrite Hc. f_equal. apply IH; [exact Ht | lia].
Qed.

Lemma strlen_no_nul (s : string) :
  no_nul s = true -> strlen s = String.length s.
Proof.
  induction s as [|c t IH]; simpl; [reflexivity|].
  intros H. apply andb_prop in H as [Hc Ht].
  apply negb_true_iff in Hc. rewrite Hc. now rewrite IH.
Qed.

(** [strncmp(path, p, strlen(p)) == 0] says that [path] begins with [p]. *)
Lemma strncmp_prefix (p s : string) :
  no_nul p = true ->
  (strncmp s p (strlen p) = 0 <-> exists rest, s = (p ++ rest)%string).
Proof.
  revert s; induction p as [|c t IH]; intros s Hp.
  - simpl. split; [intros _; now exists s | reflexivity].
  - simpl in Hp. apply andb_prop in Hp as [Hc Ht].
    apply negb_true_iff in Hc.
    cbn [strlen]. rewrite Hc. cbn [strncmp peek advance].
    destruct (Ascii.eqb (peek s) c) eqn:Ec; cbn [negb].
    + apply Ascii.eqb_eq in Ec. rewrite Ec, Hc.
      destruct s as [|c' s']; simpl in Ec.
      * subst c. unfold NUL in Hc. rewrite Ascii.eqb_refl in Hc. discriminate.
      * subst c'. simpl. rewrite (IH s' Ht). split.
        -- intros [rest ->]. now exists rest.
        -- intros [rest E]. injection E as E. now exists rest.
    + split.
      * intros E. exfalso. revert E. now apply uchar_diff_neq.
      * intros [rest ->]. simpl in Ec. rewrite Ascii.eqb_refl in Ec.
        discriminate.
Qed.

Lemma should_cache_loop_spec (prefixes : list string) (path : string) :
  Forall (fun p => no_nul p = true) prefixes ->
  (should_cache_loop prefixes path = true <->
   exists p, In p prefixes /\ exists rest, path = (p ++ rest)%string).
Proof.
  induction 1 as [|p rest Hp _ IH]; simpl.
  - split; [discriminate | intros (p & [] & _)].
  - destruct (strncmp path p (strlen p) =? 0) eqn:E.
    + apply Z.eqb_eq in E. apply (strncmp_prefix p path Hp) in E.
      split; [intros _; exists p; auto | reflexivity].
    + apply Z.eqb_neq in E. rewrite IH. split.
      * intros (q & Hq & Hpre). exists q; auto.
      * intros (q & [<- | Hq] & Hpre).
        -- exfalso. apply E. now apply strncmp_prefix.
        -- exists q; auto.
Qed.

(** C4.  [should_cache_path path] holds exactly when [path] begins with one
    of the configured prefixes, character by character and with no regard
    for path segments: with the configured prefix [/tmp/nfs], both
    [/tmp/nfs/a] and [/tmp/nfsother] are eligible. *)
Theorem should_cache_path_raw_prefix :
  (forall path : string,
     should_cache_path path = true <->
     exists p, In p cached_paths /\ exists rest, path = (p ++ rest)%string)
  /\ cached_paths = ["/tmp/nfs"%string]
  /\ should_cache_path "/tmp/nfs/a" = true
  /\ should_cache_path "/tmp/nfsother" = true
  /\ should_cache_path "/tmp/nf" = false.
Proof.
  split; [| repeat split].
  intros path. apply should_cache_loop_spec.
  repeat constructor.
Qed.

(** ** Calls that never reach the cache *)

Section Delegation.

Context {K : Kernel}.

Variables (jiffies : Z) (kmalloc : bool) (user_ns : Z).
Variables (request_mask query_flags : Z) (s : state).

Lemma call_original_eq (p : struct_path) (buf : kstat) (s0 : state) :
  call_original user_ns p buf request_mask query_flags s0 =
  let r := original_getattr (fs s0) user_ns p buf request_mask query_flags in
  (after_original (state_of r)
     (mk_call user_ns p request_mask query_flags) s0,
   ret_of r, stat_of r).
Proof.
  unfold call_original, after_original, state_of, ret_of, stat_of.
  destruct (original_getattr (fs s0) user_ns p buf request_mask query_flags)
    as [[w ret] st].
  reflexivity.
Qed.

(** C7.  A call with a NULL [path], a NULL [path->dentry] or a NULL [stat]
    returns [-EINVAL] at once: the state, which includes the store, both
    counters, the world of the original operation and the log of calls to
    it, is the one before the call, and [*stat] is not written. *)
Theorem cached_getattr_invalid_argument
    (path : option struct_path) (stat : option kstat) :
  path = None \/ (exists p, path = Some p /\ dentry p = None) \/ stat = None ->
  cached_getattr jiffies kmalloc user_ns path stat request_mask query_flags s
  = (s, - EINVAL, stat)
  /\ - EINVAL = -22.
Proof.
  intros H. split; [|reflexivity].
  unfold cached_getattr.
  destruct path as [p|]; [|reflexivity].
  destruct stat as [buf|]; [|reflexivity].
  destruct H as [H | [(p' & Hp & Hd) | H]]; try discriminate.
  injection Hp as <-. now rewrite Hd.
Qed.

(** C10.  When [d_path] fails, so that [get_full_path] returns NULL,
    [cached_getattr] returns what the original operation returns and
    changes nothing but what that one call changes: the store and both
    counters are as before.  The outcome does not depend on the
    eligibility policy, which is applied to a path string only. *)
Theorem cached_getattr_unresolved_path
    (p : struct_path) (d : Z) (buf : kstat) (err : Z) :
  dentry p = Some d ->
  d_path p MAX_PATH_LEN = inr err ->
  let r := original_getattr (fs s) user_ns p buf request_mask query_flags in
  let res :=
    cached_getattr jiffies kmalloc user_ns (Some p) (Some buf)
      request_mask query_flags s in
  get_full_path p MAX_PATH_LEN = None
  /\ res = delegated user_ns p buf request_mask query_flags s
  /\ ret_of res = ret_of r
  /\ stat_of res = Some (stat_of r)
  /\ provider_log (state_of res)
     = provider_log s ++ [mk_call user_ns p request_mask query_flags]
  /\ cache_list (state_of res) = cache_list s
  /\ cache_hits (state_of res) = cache_hits s
  /\ cache_misses (state_of res) = cache_misses s.
Proof.
  intros Hd He r res.
  assert (G : get_full_path p MAX_PATH_LEN = None)
    by (unfold get_full_path; now rewrite He).
  assert (E : res = delegated user_ns p buf request_mask query_flags s).
  { unfold res, cached_getattr, delegated.
    rewrite Hd, G, call_original_eq. reflexivity. }
  split; [exact G|]. split; [exact E|]. rewrite E. repeat split.
Qed.

(** C6.  For a path string that [should_cache_path] rejects,
    [cached_getattr] calls the original operation and returns what it
    returns; the store and both counters are as before. *)
Theorem cached_getattr_ineligible
    (p : struct_path) (d : Z) (buf : kstat) (fullpath : string) :
  dentry p = Some d ->
  get_full_path p MAX_PATH_LEN = Some fullpath ->
  should_cache_path fullpath = false ->
  let r := original_getattr (fs s) user_ns p buf request_mask query_flags in
  let res :=
    cached_getattr jiffies kmalloc user_ns (Some p) (Some buf)
      request_mask query_flags s in
  res = delegated user_ns p buf request_mask query_flags s
  /\ ret_of res = ret_of r
  /\ stat_of res = Some (stat_of r)
  /\ provider_log (state_of res)
     = provider_log s ++ [mk_call user_ns p request_mask query_flags]
  /\ cache_list (state_of res) = cache_list s
  /\ cache_hits (state_of res) = cache_hits s
  /\ cache_misses (state_of res) = cache_misses s.
Proof.
  intros Hd Hp He r res.
  assert (E : res = delegated user_ns p buf request_mask query_flags s).
  { unfold res, cached_getattr, delegated.
    rewrite Hd, Hp, He, call_original_eq. reflexivity. }
  split; [exact E|]. rewrite E. repeat split.
Qed.

End Delegation.

Lemma cached_getattr_invalid_argument_witness :
  cached_getattr (K := Demo.kernel) 5 true 7 (Some Demo.nfs_a) None 1 0
    Demo.empty_state
  = (Demo.empty_state, - EINVAL, None)
  /\ - EINVAL = -22.
Proof.
  apply (cached_getattr_invalid_argument (K := Demo.kernel)).
  right; right; reflexivity.
Defined.

Lemma cached_getattr_unresolved_path_witness :
  let res :=
    cached_getattr (K := Demo.kernel) 5 true 7 (Some Demo.too_long) (Some 0)
      1 0 Demo.empty_state in
  get_full_path (K := Demo.kernel) Demo.too_long MAX_PATH_LEN = None
  /\ res = delegated (K := Demo.kernel) 7 Demo.too_long 0 1 0 Demo.empty_state
  /\ ret_of res = 0
  /\ stat_of res = Some 100
  /\ provider_log (state_of res) = [] ++ [mk_call 7 Demo.too_long 1 0]
  /\ cache_list (state_of res) = []
  /\ cache_hits (state_of res) = 0
  /\ cache_misses (state_of res) = 0.
Proof.
  apply (cached_getattr_unresolved_path (K := Demo.kernel) 5 true 7 1 0
           Demo.empty_state Demo.too_long 4 0 (-36)); reflexivity.
Defined.

Lemma cached_getattr_ineligible_witness :
  let res :=
    cached_getattr (K := Demo.kernel) 5 true 7 (Some Demo.home_u) (Some 0)
      1 0 Demo.empty_state in
  res = delegated (K := Demo.kernel) 7 Demo.home_u 0 1 0 Demo.empty_state
  /\ ret_of res = 0
  /\ stat_of res = Some 100
  /\ provider_log (state_of res) = [] ++ [mk_call 7 Demo.home_u 1 0]
  /\ cache_list (state_of res) = []
  /\ cache_hits (state_of res) = 0
  /\ cache_misses (state_of res) = 0.
Proof.
  apply (cached_getattr_ineligible (K := Demo.kernel) 5 true 7 1 0
           Demo.empty_state Demo.home_u 3 0 "/home/u"); reflexivity.
Defined.

(** ** Misses on eligible paths *)

Section Miss.

Context {K : Kernel}.

(** The entry path written by [strncpy] is the string [d_path] returned. *)
Lemma entry_path_full (p : struct_path) (fullpath : string) :
  get_full_path p MAX_PATH_LEN = Some fullpath ->
  no_nul fullpath = true
  /\ strncpy fullpath (Z.to_nat (MAX_PATH_LEN - 1)) = fullpath.
Proof.
  unfold get_full_path. intros H.
  destruct (d_path p MAX_PATH_LEN) as [ret|err] eqn:E; [|discriminate].
  injection H as ->.
  destruct (d_path_fits _ _ _ E) as [Hn Hl].
  split; [exact Hn|]. apply strncpy_fits; [exact Hn|].
  unfold MAX_PATH_LEN in *. lia.
Qed.

Variables (jiffies : Z) (kmalloc : bool) (user_ns : Z).
Variables (p : struct_path) (d : Z) (buf : kstat).
Variables (request_mask query_flags : Z) (s : state) (fullpath : string).

Hypothesis Hdentry : dentry p = Some d.
Hypothesis Hpath : get_full_path p MAX_PATH_LEN = Some fullpath.
Hypothesis Heligible : should_cache_path fullpath = true.
Hypothesis Hmiss : lookup_loop jiffies fullpath (cache_list s) = None.

Let r := original_getattr (fs s) user_ns p buf request_mask query_flags.
Let res :=
  cached_getattr jiffies kmalloc user_ns (Some p) (Some buf)
    request_mask query_flags s.
Let fetched : state :=
  after_original (state_of r) (mk_call user_ns p request_mask query_flags)
    (set_cache_misses (atomic_inc (cache_misses s)) s).

Lemma cached_getattr_miss :
  res =
  if negb (ret_of r =? 0) then (fetched, ret_of r, Some (stat_of r))
  else if negb kmalloc then (fetched, ret_of r, Some (stat_of r))
  else (set_cache_list
          (mk_entry fullpath (stat_of r) jiffies :: cache_list s) fetched,
        ret_of r, Some (stat_of r)).
Proof.
  unfold res, cached_getattr.
  rewrite Hdentry, Hpath, Heligible, Hmiss. cbn [negb].
  rewrite call_original_eq.
  destruct (entry_path_full _ _ Hpath) as [_ ->].
  cbn [fs set_cache_misses]. fold r. unfold fetched, list_add.
  destruct (negb (ret_of r =? 0)); [reflexivity|].
  destruct (negb kmalloc); reflexivity.
Qed.

(** C5, as amended.  On a miss for an eligible path the original
    operation is called exactly once.  When it succeeds the miss counter
    is incremented, its kstat is returned with code 0 and, provided the
    entry allocation succeeds, an entry for the path is put at the head
    of the store.  When it fails its error code is returned as it is and
    the store is as before. *)
Theorem cached_getattr_miss_fetches_once :
  provider_log (state_of res)
  = provider_log s ++ [mk_call user_ns p request_mask query_flags]
  /\ fs (state_of res) = state_of r
  /\ (ret_of r = 0 ->
      cache_misses (state_of res) = atomic_inc (cache_misses s)
      /\ ret_of res = 0
      /\ stat_of res = Some (stat_of r)
      /\ (kmalloc = true ->
          cache_list (state_of res)
          = mk_entry fullpath (stat_of r) jiffies :: cache_list s))
  /\ (ret_of r <> 0 ->
      ret_of res = ret_of r
      /\ stat_of res = Some (stat_of r)
      /\ cache_list (state_of res) = cache_list s).
Proof.
  rewrite cached_getattr_miss.
  destruct (ret_of r =? 0) eqn:E; cbn [negb].
  - apply Z.eqb_eq in E.
    destruct kmalloc; cbn [negb]; repeat split; try assumption;
      try reflexivity; try (intros; congruence).
  - apply Z.eqb_neq in E.
    repeat split; try reflexivity; intros; congruence.
Qed.

(** C8.  When the original operation succeeds and the allocation of the
    entry fails, [cached_getattr] returns 0 with the kstat just fetched;
    the store is as before the call. *)
Theorem cached_getattr_allocation_failure :
  ret_of r = 0 ->
  kmalloc = false ->
  res = (fetched, 0, Some (stat_of r))
  /\ cache_list (state_of res) = cache_list s
  /\ provider_log (state_of res)
     = provider_log s ++ [mk_call user_ns p request_mask query_flags].
Proof.
  intros Hr Hk. rewrite cached_getattr_miss, Hr, Hk.
  repeat split.
Qed.

(** The miss counter is incremented before the original operation is
    called, so a failed fetch counts as a miss too. *)
Remark failed_fetch_counts_as_miss :
  ret_of r <> 0 ->
  cache_misses (state_of res) = atomic_inc (cache_misses s)
  /\ cache_hits (state_of res) = cache_hits s.
Proof.
  intros Hr. rewrite cached_getattr_miss.
  apply Z.eqb_neq in Hr. rewrite Hr. split; reflexivity.
Qed.

End Miss.

Lemma cached_getattr_miss_fetches_once_witness :
  let r := @original_getattr Demo.kernel 0 7 Demo.nfs_a 0 1 0 in
  let res :=
    cached_getattr (K := Demo.kernel) 5 true 7 (Some Demo.nfs_a) (Some 0) 1 0
      Demo.empty_state in
  provider_log (state_of res) = [] ++ [mk_call 7 Demo.nfs_a 1 0]
  /\ fs (state_of res) = state_of r
  /\ (ret_of r = 0 ->
      cache_misses (state_of res) = atomic_inc 0
      /\ ret_of res = 0
      /\ stat_of res = Some (stat_of r)
      /\ (true = true ->
          cache_list (state_of res)
          = mk_entry "/tmp/nfs/a" (stat_of r) 5 :: []))
  /\ (ret_of r <> 0 ->
      ret_of res = ret_of r
      /\ stat_of res = Some (stat_of r)
      /\ cache_list (state_of res) = []).
Proof.
  apply (cached_getattr_miss_fetches_once (K := Demo.kernel) 5 true 7
           Demo.nfs_a 1 0 1 0 Demo.empty_state "/tmp/nfs/a");
    reflexivity.
Defined.

(** C5 as stated does not hold: with a failing allocation an eligible miss
    whose fetch succeeds leaves the store without the new entry. *)
Lemma successful_fetch_without_insert :
  (let res :=
     cached_getattr (K := Demo.kernel) 5 false 7 (Some Demo.nfs_a) (Some 0)
       1 0 Demo.empty_state in
   should_cache_path "/tmp/nfs/a" = true
   /\ lookup_loop (K := Demo.kernel) 5 "/tmp/nfs/a" [] = None
   /\ Demo.original_getattr 0 7 Demo.nfs_a 0 1 0 = (1, 0, 100)
   /\ res = (mk_state (K := Demo.kernel) [] 0 1 1
               [mk_call 7 Demo.nfs_a 1 0], 0, Some 100))
  /\ ~ (forall (K : Kernel) jiffies kmalloc user_ns p d buf
          request_mask query_flags s fullpath,
          dentry p = Some d ->
          get_full_path p MAX_PATH_LEN = Some fullpath ->
          should_cache_path fullpath = true ->
          lookup_loop jiffies fullpath (cache_list s) = None ->
          let r :=
            original_getattr (fs s) user_ns p buf request_mask query_flags in
          let res :=
            cached_getattr jiffies kmalloc user_ns (Some p) (Some buf)
              request_mask query_flags s in
          provider_log (state_of res)
          = provider_log s ++ [mk_call user_ns p request_mask query_flags]
          /\ (ret_of r = 0 ->
              cache_list (state_of res)
              = mk_entry fullpath (stat_of r) jiffies :: cache_list s
              /\ cache_misses (state_of res) = atomic_inc (cache_misses s)
              /\ ret_of res = 0
              /\ stat_of res = Some (stat_of r))
          /\ (ret_of r <> 0 ->
              ret_of res = ret_of r
              /\ cache_list (state_of res) = cache_list s)).
Proof.
  split; [repeat split|].
  intros H.
  specialize (H Demo.kernel 5 false 7 Demo.nfs_a 1 0 1 0 Demo.empty_state
                "/tmp/nfs/a"%string eq_refl eq_refl eq_refl eq_refl).
  destruct H as (_ & H & _).
  destruct (H eq_refl) as [H' _]. discriminate H'.
Qed.

Lemma cached_getattr_allocation_failure_witness :
  cached_getattr (K := Demo.kernel) 5 false 7 (Some Demo.nfs_a) (Some 0) 1 0
    Demo.empty_state
  = (mk_state (K := Demo.kernel) [] 0 1 1 [mk_call 7 Demo.nfs_a 1 0],
     0, Some 100)
  /\ cache_list
       (state_of
          (cached_getattr (K := Demo.kernel) 5 false 7 (Some Demo.nfs_a)
             (Some 0) 1 0 Demo.empty_state)) = []
  /\ provider_log
       (state_of
          (cached_getattr (K := Demo.kernel) 5 false 7 (Some Demo.nfs_a)
             (Some 0) 1 0 Demo.empty_state))
     = [] ++ [mk_call 7 Demo.nfs_a 1 0].
Proof.
  apply (cached_getattr_allocation_failure (K := Demo.kernel) 5 false 7
           Demo.nfs_a 1 0 1 0 Demo.empty_state "/tmp/nfs/a");
    reflexivity.
Defined.

(** ** The store: lookup and sweep *)

Section Store.

Context {K : Kernel}.

Lemma ulong_sub_offset (T d : Z) :
  0 <= d < 2 ^ BITS_PER_LONG -> ulong_sub (ulong (T + d)) T = d.
Proof.
  intros Hd. unfold ulong_sub, ulong.
  rewrite Zminus_mod_idemp_l.
  replace (T + d - T) with d by lia.
  now apply Z.mod_small.
Qed.

(** Without wrap-around the age is the plain difference. *)
Lemma age_no_wrap (now : Z) (e : getattr_cache_entry) :
  0 <= now - entry_timestamp e < 2 ^ BITS_PER_LONG ->
  age now e = now - entry_timestamp e.
Proof. intros H. unfold age, ulong_sub, ulong. now apply Z.mod_small. Qed.

Lemma entry_hit_iff (now : Z) (fullpath : string) (e : getattr_cache_entry) :
  no_nul (entry_path e) = true -> no_nul fullpath = true ->
  (entry_hit now fullpath e = true <->
   entry_path e = fullpath /\ age now e < TTL).
Proof.
  intros He Hf. unfold entry_hit.
  rewrite andb_true_iff, Z.eqb_eq, Z.ltb_lt, (strcmp_eq _ _ He Hf).
  reflexivity.
Qed.

Lemma entry_hit_stale (now : Z) (fullpath : string) (e : getattr_cache_entry) :
  age now e >= TTL -> entry_hit now fullpath e = false.
Proof.
  intros H. unfold entry_hit.
  replace (age now e <? TTL) with false by (symmetry; apply Z.ltb_ge; lia).
  apply andb_false_r.
Qed.

(** The loop returns on the first entry that passes the test. *)
Lemma lookup_loop_first (now : Z) (fullpath : string)
    (l : list getattr_cache_entry) :
  match lookup_loop now fullpath l with
  | Some st =>
      exists pre e post,
        l = pre ++ e :: post
        /\ entry_hit now fullpath e = true
        /\ entry_stat e = st
        /\ Forall (fun e' => entry_hit now fullpath e' = false) pre
  | None => Forall (fun e => entry_hit now fullpath e = false) l
  end.
Proof.
  induction l as [|e rest IH]; simpl.
  - constructor.
  - destruct (entry_hit now fullpath e) eqn:E.
    + exists [], e, rest. repeat split; auto.
    + destruct (lookup_loop now fullpath rest) as [st|].
      * destruct IH as (pre & e' & post & -> & Hh & Hs & Hpre).
        exists (e :: pre), e', post. repeat split; auto.
      * constructor; assumption.
Qed.

Lemma lookup_loop_skip (now : Z) (fullpath : string)
    (pre : list getattr_cache_entry) (l : list getattr_cache_entry) :
  Forall (fun e' => entry_hit now fullpath e' = false) pre ->
  lookup_loop now fullpath (pre ++ l) = lookup_loop now fullpath l.
Proof.
  induction 1 as [|e pre He _ IH]; simpl; [reflexivity|].
  now rewrite He.
Qed.

(** A call never takes an entry out of the store. *)
Lemma cached_getattr_keeps_entries (jiffies : Z) (kmalloc : bool)
    (user_ns : Z) (path : option struct_path) (stat : option kstat)
    (request_mask query_flags : Z) (s : state) :
  let res :=
    cached_getattr jiffies kmalloc user_ns path stat
      request_mask query_flags s in
  cache_list (state_of res) = cache_list s
  \/ exists p fullpath st,
       path = Some p
       /\ get_full_path p MAX_PATH_LEN = Some fullpath
       /\ should_cache_path fullpath = true
       /\ lookup_loop jiffies fullpath (cache_list s) = None
       /\ stat_of res = Some st
       /\ cache_list (state_of res)
          = mk_entry fullpath st jiffies :: cache_list s.
Proof.
  unfold cached_getattr.
  destruct path as [p|]; [|now left].
  destruct stat as [buf|]; [|now left].
  destruct (dentry p) as [d|]; [|now left].
  destruct (get_full_path p MAX_PATH_LEN) as [fullpath|] eqn:Hp.
  2:{ rewrite call_original_eq. now left. }
  destruct (should_cache_path fullpath) eqn:He.
  2:{ cbn [negb]. rewrite call_original_eq. now left. }
  cbn [negb].
  destruct (lookup_loop jiffies fullpath (cache_list s)) as [st|] eqn:Hl;
    [now left|].
  rewrite call_original_eq. cbn [fs set_cache_misses].
  destruct (entry_path_full _ _ Hp) as [_ ->].
  match goal with |- context [negb (?r =? 0)] => destruct (negb (r =? 0)) end;
    [now left|].
  destruct (negb kmalloc); [now left|].
  right. eexists p, fullpath, _.
  split; [reflexivity|]. split; [exact Hp|]. split; [exact He|].
  split; [exact Hl|]. split; reflexivity.
Qed.

(** A hit returns the kstat found and changes the hit counter only. *)
Lemma cached_getattr_hit (jiffies : Z) (kmalloc : bool) (user_ns : Z)
    (p : struct_path) (d : Z) (buf : kstat) (request_mask query_flags : Z)
    (s : state) (fullpath : string) (st : kstat) :
  dentry p = Some d ->
  get_full_path p MAX_PATH_LEN = Some fullpath ->
  should_cache_path fullpath = true ->
  lookup_loop jiffies fullpath (cache_list s) = Some st ->
  cached_getattr jiffies kmalloc user_ns (Some p) (Some buf)
    request_mask query_flags s
  = (set_cache_hits (atomic_inc (cache_hits s)) s, 0, Some st).
Proof.
  intros Hd Hp He Hl. unfold cached_getattr.
  now rewrite Hd, Hp, He, Hl.
Qed.

Lemma cleanup_loop_filter (now : Z) (l : list getattr_cache_entry) :
  cleanup_loop now l = filter (fresh now) l.
Proof.
  induction l as [|e tl IH]; simpl; [reflexivity|].
  unfold fresh at 1.
  destruct (Z.ltb_spec (age now e) TTL) as [Hlt|Hge].
  - replace (age now e >=? TTL) with false
      by (symmetry; rewrite Z.geb_leb; apply Z.leb_gt; exact Hlt).
    now rewrite IH.
  - replace (age now e >=? TTL) with true
      by (symmetry; rewrite Z.geb_leb; apply Z.leb_le; exact Hge).
    exact IH.
Qed.

Lemma count_fresh_filter (now : Z) (l : list getattr_cache_entry) :
  count_fresh now l = List.length (filter (fresh now) l).
Proof.
  induction l as [|e tl IH]; simpl; [reflexivity|].
  unfold fresh at 1. destruct (age now e <? TTL); simpl; now rewrite IH.
Qed.

(** Paths in the store stay free of embedded terminators. *)
Lemma store_wf_cached_getattr (jiffies : Z) (kmalloc : bool) (user_ns : Z)
    (path : option struct_path) (stat : option kstat)
    (request_mask query_flags : Z) (s : state) :
  store_wf (cache_list s) ->
  store_wf
    (cache_list (state_of (cached_getattr jiffies kmalloc user_ns path stat
                             request_mask query_flags s))).
Proof.
  intros Hwf.
  destruct (cached_getattr_keeps_entries jiffies kmalloc user_ns path stat
              request_mask query_flags s)
    as [-> | (p & fp & st & _ & Hp & _ & _ & _ & ->)]; [exact Hwf|].
  constructor; [|exact Hwf].
  exact (proj1 (entry_path_full _ _ Hp)).
Qed.

Lemma store_wf_run (evs : list event) (s : state) :
  store_wf (cache_list s) -> store_wf (cache_list (run evs s)).
Proof.
  revert s. induction evs as [|ev evs IH]; intros s Hwf; [exact Hwf|].
  unfold run. simpl. apply IH.
  destruct ev as [j km ns p st rm qf | j]; simpl.
  - now apply store_wf_cached_getattr.
  - rewrite cleanup_loop_filter. unfold store_wf in *.
    rewrite Forall_forall in *. intros e He.
    apply filter_In in He as [He _]. now apply Hwf.
Qed.

(** C2.  The lookup loop walks the store in order and returns the kstat
    of the first entry whose path equals the requested one and whose age
    is below [TTL]; when there is none it reports a miss.  An entry with
    the requested path whose age has reached [TTL] is passed over and the
    scan goes on with the entries behind it.  No call of [cached_getattr]
    takes an entry out of the store, and a hit leaves the store as it
    is. *)
Theorem lookup_first_fresh_match (now : Z) (fullpath : string)
    (l : list getattr_cache_entry) :
  store_wf l ->
  no_nul fullpath = true ->
  match lookup_loop now fullpath l with
  | Some st =>
      exists pre e post,
        l = pre ++ e :: post
        /\ entry_path e = fullpath
        /\ age now e < TTL
        /\ entry_stat e = st
        /\ (forall e', In e' pre ->
              ~ (entry_path e' = fullpath /\ age now e' < TTL))
  | None =>
      forall e, In e l -> ~ (entry_path e = fullpath /\ age now e < TTL)
  end
  /\ (forall e rest,
        entry_path e = fullpath -> age now e >= TTL ->
        lookup_loop now fullpath (e :: rest) = lookup_loop now fullpath rest)
  /\ (forall kmalloc user_ns path stat request_mask query_flags s,
        cache_list s = l ->
        exists added,
          cache_list
            (state_of (cached_getattr now kmalloc user_ns path stat
                         request_mask query_flags s))
          = added ++ l)
  /\ (forall kmalloc user_ns p d buf request_mask query_flags s st,
        cache_list s = l ->
        dentry p = Some d ->
        get_full_path p MAX_PATH_LEN = Some fullpath ->
        should_cache_path fullpath = true ->
        lookup_loop now fullpath l = Some st ->
        let res :=
          cached_getattr now kmalloc user_ns (Some p) (Some buf)
            request_mask query_flags s in
        cache_list (state_of res) = l /\ stat_of res = Some st).
Proof.
  intros Hwf Hf. split; [|split; [|split]].
  - pose proof (lookup_loop_first now fullpath l) as H.
    destruct (lookup_loop now fullpath l) as [st|].
    + destruct H as (pre & e & post & -> & Hh & Hs & Hpre).
      unfold store_wf in Hwf. rewrite Forall_app in Hwf.
      destruct Hwf as [Hwpre Hwpost].
      apply Forall_cons_iff in Hwpost as [Hwe _].
      apply (entry_hit_iff _ _ _ Hwe Hf) in Hh as [Hp Ha].
      exists pre, e, post. repeat split; auto.
      intros e' Hin Hc.
      rewrite Forall_forall in Hpre, Hwpre.
      apply (entry_hit_iff _ _ _ (Hwpre _ Hin) Hf) in Hc.
      rewrite (Hpre _ Hin) in Hc. discriminate.
    + intros e Hin Hc.
      rewrite Forall_forall in H. unfold store_wf in Hwf.
      rewrite Forall_forall in Hwf.
      apply (entry_hit_iff _ _ _ (Hwf _ Hin) Hf) in Hc.
      rewrite (H _ Hin) in Hc. discriminate.
  - intros e rest _ Ha. simpl.
    now rewrite (entry_hit_stale _ _ _ Ha).
  - intros km ns path stat rm qf s <-.
    destruct (cached_getattr_keeps_entries now km ns path stat rm qf s)
      as [E | (p & fp & st & _ & _ & _ & _ & _ & E)].
    + exists []. exact E.
    + eexists [_]. exact E.
  - intros km ns p d buf rm qf s st <- Hd Hp He Hl res.
    unfold res. rewrite (cached_getattr_hit _ _ _ _ _ _ _ _ _ _ _ Hd Hp He Hl).
    split; reflexivity.
Qed.

(** C3.  A sweep at time [now] keeps, in their order and as they are,
    the entries whose age is below [TTL] and drops the entries whose age
    has reached [TTL]; the store then has as many entries as were fresh
    before.  The age is the difference of the two [unsigned long] values,
    which is the plain difference when the timestamp is not ahead of
    [now].  Counters, world and log are not touched. *)
Theorem cleanup_cache_removes_expired (now : Z) (s : state) :
  let l := cache_list s in
  let l' := cache_list (cleanup_cache now s) in
  l' = filter (fresh now) l
  /\ (forall e, In e l' <-> In e l /\ age now e < TTL)
  /\ (forall e, In e l -> age now e >= TTL -> ~ In e l')
  /\ List.length l' = count_fresh now l
  /\ (forall e, 0 <= now - entry_timestamp e < 2 ^ BITS_PER_LONG ->
                age now e = now - entry_timestamp e)
  /\ cache_hits (cleanup_cache now s) = cache_hits s
  /\ cache_misses (cleanup_cache now s) = cache_misses s
  /\ fs (cleanup_cache now s) = fs s
  /\ provider_log (cleanup_cache now s) = provider_log s.
Proof.
  cbn zeta. cbn [cleanup_cache set_cache_list cache_list cache_hits
                   cache_misses fs provider_log].
  rewrite cleanup_loop_filter.
  split; [reflexivity|]. split; [|split; [|split; [|split]]].
  - intros e. rewrite filter_In. unfold fresh. now rewrite Z.ltb_lt.
  - intros e _ Hge Hin. apply filter_In in Hin as [_ Hf].
    unfold fresh in Hf. apply Z.ltb_lt in Hf. lia.
  - symmetry. apply count_fresh_filter.
  - intros e. apply age_no_wrap.
  - repeat split.
Qed.

End Store.

Lemma lookup_first_fresh_match_witness :
  lookup_loop (K := Demo.kernel) 1200 "/tmp/nfs/a" Demo.two_for_a = Some 101
  /\ lookup_loop (K := Demo.kernel) 1200 "/tmp/nfs/a"
       (mk_entry (K := Demo.kernel) "/tmp/nfs/a" 100 0 :: [])
     = lookup_loop (K := Demo.kernel) 1200 "/tmp/nfs/a" []
  /\ (let res :=
        cached_getattr (K := Demo.kernel) 1200 true 7 (Some Demo.nfs_a)
          (Some 0) 1 0 Demo.with_two_for_a in
      cache_list (state_of res) = Demo.two_for_a /\ stat_of res = Some 101).
Proof.
  destruct (lookup_first_fresh_match (K := Demo.kernel) 1200 "/tmp/nfs/a"
              Demo.two_for_a)
    as (_ & Hskip & _ & Hhit).
  - repeat constructor.
  - reflexivity.
  - split; [reflexivity|]. split.
    + apply Hskip; [reflexivity | vm_compute; discriminate].
    + apply (Hhit true 7 Demo.nfs_a 1 0 1 0 Demo.with_two_for_a 101);
        reflexivity.
Defined.

(** The sweep on a store with one expired and two fresh entries. *)
Example cleanup_cache_two_of_three :
  cache_list (cleanup_cache (K := Demo.kernel) 1200 Demo.with_two_for_a)
  = [ mk_entry (K := Demo.kernel) "/tmp/nfs/b" 7 1150;
      mk_entry (K := Demo.kernel) "/tmp/nfs/a" 101 1100 ]
  /\ count_fresh (K := Demo.kernel) 1200 Demo.two_for_a = 2%nat.
Proof. split; reflexivity. Qed.

(** ** Insertion keeps what is there *)

Section Duplicates.

Context {K : Kernel}.

(** A miss whose fetch and allocation both succeed. *)
Lemma cached_getattr_miss_inserts (jiffies : Z) (user_ns : Z)
    (p : struct_path) (d : Z) (buf : kstat) (request_mask query_flags : Z)
    (s : state) (fullpath : string) :
  dentry p = Some d ->
  get_full_path p MAX_PATH_LEN = Some fullpath ->
  should_cache_path fullpath = true ->
  lookup_loop jiffies fullpath (cache_list s) = None ->
  let res :=
    cached_getattr jiffies true user_ns (Some p) (Some buf)
      request_mask query_flags s in
  ret_of res = 0 ->
  exists st,
    stat_of res = Some st
    /\ cache_list (state_of res) = mk_entry fullpath st jiffies :: cache_list s.
Proof.
  intros Hd Hp He Hl res. unfold res.
  rewrite (cached_getattr_miss jiffies true user_ns p d buf request_mask
             query_flags s fullpath Hd Hp He Hl).
  destruct (ret_of _ =? 0) eqn:E; cbn [negb].
  - intros _. eexists. split; reflexivity.
  - intros Hr. apply Z.eqb_neq in E. contradiction.
Qed.

(** C9.  An insertion puts the new entry at the head of the store and
    keeps every entry already there, whatever its path.  After two misses
    on one path, each followed by a successful fetch and allocation, the
    store holds an entry for each of them, so paths in the store are not
    unique. *)
Theorem insert_keeps_same_path_entries
    (j1 j2 ns1 ns2 : Z) (p1 p2 : struct_path) (d1 d2 : Z)
    (buf1 buf2 : kstat) (rm1 rm2 qf1 qf2 : Z) (s0 : state)
    (fullpath : string) :
  dentry p1 = Some d1 ->
  dentry p2 = Some d2 ->
  get_full_path p1 MAX_PATH_LEN = Some fullpath ->
  get_full_path p2 MAX_PATH_LEN = Some fullpath ->
  should_cache_path fullpath = true ->
  let r1 := cached_getattr j1 true ns1 (Some p1) (Some buf1) rm1 qf1 s0 in
  let r2 :=
    cached_getattr j2 true ns2 (Some p2) (Some buf2) rm2 qf2 (state_of r1) in
  lookup_loop j1 fullpath (cache_list s0) = None ->
  ret_of r1 = 0 ->
  lookup_loop j2 fullpath (cache_list (state_of r1)) = None ->
  ret_of r2 = 0 ->
  exists st1 st2,
    stat_of r1 = Some st1
    /\ stat_of r2 = Some st2
    /\ cache_list (state_of r1) = mk_entry fullpath st1 j1 :: cache_list s0
    /\ cache_list (state_of r2)
       = mk_entry fullpath st2 j2 :: mk_entry fullpath st1 j1 :: cache_list s0
    /\ ~ NoDup (map entry_path (cache_list (state_of r2))).
Proof.
  intros Hd1 Hd2 Hp1 Hp2 He r1 r2 Hl1 Hr1 Hl2 Hr2.
  destruct (cached_getattr_miss_inserts j1 ns1 p1 d1 buf1 rm1 qf1 s0 fullpath
              Hd1 Hp1 He Hl1 Hr1) as (st1 & Hs1 & Hc1).
  destruct (cached_getattr_miss_inserts j2 ns2 p2 d2 buf2 rm2 qf2
              (state_of r1) fullpath Hd2 Hp2 He Hl2 Hr2) as (st2 & Hs2 & Hc2).
  fold r1 in Hs1, Hc1. fold r2 in Hs2, Hc2.
  exists st1, st2. rewrite Hc2, Hc1. repeat split; auto.
  simpl. intros Hnd. inversion Hnd as [|x l Hnotin _]; subst.
  apply Hnotin. now left.
Qed.

End Duplicates.

Lemma insert_keeps_same_path_entries_witness :
  let r1 :=
    cached_getattr (K := Demo.kernel) 0 true 7 (Some Demo.nfs_a) (Some 0) 1 0
      Demo.empty_state in
  let r2 :=
    cached_getattr (K := Demo.kernel) 1100 true 7 (Some Demo.nfs_a) (Some 0)
      1 0 (state_of r1) in
  exists st1 st2,
    stat_of r1 = Some st1
    /\ stat_of r2 = Some st2
    /\ cache_list (state_of r1) = mk_entry "/tmp/nfs/a" st1 0 :: []
    /\ cache_list (state_of r2)
       = mk_entry "/tmp/nfs/a" st2 1100 :: mk_entry "/tmp/nfs/a" st1 0 :: []
    /\ ~ NoDup (map entry_path (cache_list (state_of r2))).
Proof.
  apply (insert_keeps_same_path_entries (K := Demo.kernel) 0 1100 7 7
           Demo.nfs_a Demo.nfs_a 1 1 0 0 1 1 0 0 Demo.empty_state
           "/tmp/nfs/a");
    reflexivity.
Defined.

(** ** Hits within the time to live *)

Lemma atomic_inc_no_overflow (v : Z) :
  - 2 ^ 31 - 1 <= v < 2 ^ 31 - 1 -> atomic_inc v = v + 1.
Proof.
  intros H. unfold atomic_inc, wrap_int.
  rewrite Z.mod_small; lia.
Qed.

Section Window.

Context {K : Kernel}.

Lemma in_window_age (T j : Z) : in_window T j -> ulong_sub j T < TTL.
Proof.
  intros (d & Hd & ->).
  pose proof (msecs_to_jiffies_range CACHE_TIMEOUT_MS) as Hr.
  fold TTL in Hr. rewrite ulong_sub_offset; lia.
Qed.

Variables (fullpath : string) (e : getattr_cache_entry).

Hypothesis Hpath : entry_path e = fullpath.
Hypothesis Hnul : no_nul fullpath = true.

Lemma served_first_lookup (now : Z) (l : list getattr_cache_entry) :
  served_first fullpath e l -> age now e < TTL ->
  lookup_loop now fullpath l = Some (entry_stat e).
Proof.
  intros (pre & post & -> & Hpre) Ha.
  rewrite lookup_loop_skip.
  - simpl. unfold entry_hit. rewrite Hpath, strcmp_refl.
    apply Z.ltb_lt in Ha. now rewrite Ha.
  - eapply Forall_impl; [|exact Hpre]. intros e' Hne. unfold entry_hit.
    apply Z.eqb_neq in Hne. now rewrite Hne.
Qed.

Lemma served_first_cleanup (now : Z) (l : list getattr_cache_entry) :
  served_first fullpath e l -> age now e < TTL ->
  served_first fullpath e (cleanup_loop now l).
Proof.
  intros (pre & post & -> & Hpre) Ha.
  exists (filter (fresh now) pre), (filter (fresh now) post). split.
  - rewrite cleanup_loop_filter, filter_app. simpl.
    unfold fresh at 2. apply Z.ltb_lt in Ha. now rewrite Ha.
  - rewrite Forall_forall in *. intros e' Hin.
    apply filter_In in Hin as [Hin _]. now apply Hpre.
Qed.

Lemma served_first_cached_getattr (jiffies : Z) (kmalloc : bool)
    (user_ns : Z) (path : option struct_path) (stat : option kstat)
    (request_mask query_flags : Z) (s : state) :
  served_first fullpath e (cache_list s) -> age jiffies e < TTL ->
  served_first fullpath e
    (cache_list (state_of (cached_getattr jiffies kmalloc user_ns path stat
                             request_mask query_flags s))).
Proof.
  intros Hs Ha.
  destruct (cached_getattr_keeps_entries jiffies kmalloc user_ns path stat
              request_mask query_flags s)
    as [-> | (p & fp & st & _ & Hp & _ & Hl & _ & ->)]; [exact Hs|].
  assert (Hne : fp <> fullpath).
  { intros ->. rewrite (served_first_lookup _ _ Hs Ha) in Hl. discriminate. }
  destruct (entry_path_full _ _ Hp) as [Hfp _].
  destruct Hs as (pre & post & -> & Hpre).
  exists (mk_entry fp st jiffies :: pre), post. split; [reflexivity|].
  constructor; [|exact Hpre]. simpl.
  intros E. apply Hne. now apply (strcmp_eq _ _ Hfp Hnul).
Qed.

Lemma served_first_run (evs : list event) (s : state) :
  served_first fullpath e (cache_list s) ->
  Forall (fun ev => age (event_time ev) e < TTL) evs ->
  served_first fullpath e (cache_list (run evs s)).
Proof.
  revert s. induction evs as [|ev evs IH]; intros s Hs Hev; [exact Hs|].
  apply Forall_cons_iff in Hev as [Ha Hev].
  unfold run. simpl. apply IH; [|exact Hev].
  destruct ev as [j km ns p st rm qf | j]; simpl in *.
  - now apply served_first_cached_getattr.
  - now apply served_first_cleanup.
Qed.

End Window.

Section Hits.

Context {K : Kernel}.

(** C1.  Let a call at [jiffies = T] return 0 with kstat [st] and put an
    entry into the store, for a path resolving to [fullpath].  Let any
    sequence of calls and sweeps follow, each at a time in
    [[T, T + TTL)].  Then every call at a time in [[T, T + TTL)] for a
    path resolving to [fullpath] returns 0 with [st]; it leaves the world
    of the original operation and the log of calls to it as they are, so
    the original operation is not called; the hit counter is incremented
    once, and the store and the miss counter stay as they are. *)
Theorem cached_within_ttl_hits
    (T : Z) (kmalloc : bool) (user_ns : Z) (p : struct_path) (buf : kstat)
    (request_mask query_flags : Z) (s0 s1 : state) (st : kstat)
    (fullpath : string) :
  get_full_path p MAX_PATH_LEN = Some fullpath ->
  cached_getattr T kmalloc user_ns (Some p) (Some buf)
    request_mask query_flags s0 = (s1, 0, Some st) ->
  cache_list s1 <> cache_list s0 ->
  forall evs : list event,
    Forall (fun ev => in_window T (event_time ev)) evs ->
    forall (d : Z) (kmalloc' : bool) (user_ns' : Z) (p' : struct_path)
           (d' : Z) (buf' : kstat) (request_mask' query_flags' : Z),
      0 <= d < TTL ->
      dentry p' = Some d' ->
      get_full_path p' MAX_PATH_LEN = Some fullpath ->
      let s2 := run evs s1 in
      let res :=
        cached_getattr (ulong (T + d)) kmalloc' user_ns' (Some p')
          (Some buf') request_mask' query_flags' s2 in
      should_cache_path fullpath = true
      /\ res = (set_cache_hits (atomic_inc (cache_hits s2)) s2, 0, Some st)
      /\ ret_of res = 0
      /\ stat_of res = Some st
      /\ provider_log (state_of res) = provider_log s2
      /\ fs (state_of res) = fs s2
      /\ cache_hits (state_of res) = atomic_inc (cache_hits s2)
      /\ (- 2 ^ 31 <= cache_hits s2 < 2 ^ 31 - 1 ->
          cache_hits (state_of res) = cache_hits s2 + 1)
      /\ cache_misses (state_of res) = cache_misses s2
      /\ cache_list (state_of res) = cache_list s2.
Proof.
  intros Hp Hcall Hpop evs Hevs d km' ns' p' d' buf' rm' qf' Hd Hd' Hp' s2 res.
  pose proof (cached_getattr_keeps_entries T kmalloc user_ns (Some p)
                (Some buf) request_mask query_flags s0) as Hk.
  cbn zeta in Hk. rewrite Hcall in Hk.
  unfold state_of, stat_of in Hk. cbn [fst snd] in Hk.
  destruct Hk as [Hk | (q & fp & st' & Hq & Hfp & He & _ & Hst & Hl)];
    [contradiction|].
  injection Hq as <-. rewrite Hp in Hfp. injection Hfp as <-.
  injection Hst as <-.
  destruct (entry_path_full _ _ Hp) as [Hnul _].
  set (e := mk_entry fullpath st T).
  assert (Hin : forall j, in_window T j -> age j e < TTL)
    by (intros j Hj; now apply in_window_age).
  assert (Hs1 : served_first fullpath e (cache_list s1)).
  { exists [], (cache_list s0). split; [exact Hl | constructor]. }
  assert (Hs2 : served_first fullpath e (cache_list s2)).
  { apply (served_first_run fullpath e eq_refl Hnul); [exact Hs1|].
    eapply Forall_impl; [|exact Hevs]. intros ev. apply Hin. }
  assert (Hhit : lookup_loop (ulong (T + d)) fullpath (cache_list s2)
                 = Some st).
  { apply (served_first_lookup fullpath e eq_refl _ _ Hs2).
    apply Hin. now exists d. }
  assert (Hres : res = (set_cache_hits (atomic_inc (cache_hits s2)) s2,
                        0, Some st))
    by (unfold res;
        apply (cached_getattr_hit _ _ _ p' d' _ _ _ _ fullpath st
                 Hd' Hp' He Hhit)).
  split; [exact He|]. split; [exact Hres|]. rewrite Hres.
  repeat split. cbn. intros Hr. apply atomic_inc_no_overflow. lia.
Qed.

End Hits.

Lemma cached_within_ttl_hits_witness :
  let s2 := run (K := Demo.kernel) Demo.busy_second Demo.after_first in
  let res :=
    cached_getattr (K := Demo.kernel) (ulong (K := Demo.kernel) (0 + 999))
      true 8 (Some Demo.nfs_a) (Some 0) 0 0 s2 in
  should_cache_path "/tmp/nfs/a" = true
  /\ res = (set_cache_hits (atomic_inc (cache_hits s2)) s2, 0, Some 100)
  /\ ret_of res = 0
  /\ stat_of res = Some 100
  /\ provider_log (state_of res) = provider_log s2
  /\ fs (state_of res) = fs s2
  /\ cache_hits (state_of res) = atomic_inc (cache_hits s2)
  /\ (- 2 ^ 31 <= cache_hits s2 < 2 ^ 31 - 1 ->
      cache_hits (state_of res) = cache_hits s2 + 1)
  /\ cache_misses (state_of res) = cache_misses s2
  /\ cache_list (state_of res) = cache_list s2.
Proof.
  apply (cached_within_ttl_hits (K := Demo.kernel) 0 true 7 Demo.nfs_a 0 1 0
           Demo.empty_state Demo.after_first 100 "/tmp/nfs/a"
           eq_refl eq_refl)
    with (d' := 1).
  - discriminate.
  - repeat constructor;
      [exists 100 | exists 200 | exists 300 | exists 400];
      (split; [cbv; split; [discriminate | reflexivity] | reflexivity]).
  - cbv; split; [discriminate | reflexivity].
  - reflexivity.
  - reflexivity.
Defined.

(** The end-to-end run with a one-second time to live: a miss at 0, a hit
    at 500, a second miss at 1100 although no sweep has run. *)
Example one_second_ttl_run :
  let r0 :=
    cached_getattr (K := Demo.kernel) 0 true 7 (Some Demo.nfs_a) (Some 0) 1 0
      Demo.empty_state in
  let r1 :=
    cached_getattr (K := Demo.kernel) 500 true 7 (Some Demo.nfs_a) (Some 0)
      1 0 (state_of r0) in
  let r2 :=
    cached_getattr (K := Demo.kernel) 1100 true 7 (Some Demo.nfs_a) (Some 0)
      1 0 (state_of r1) in
  TTL (K := Demo.kernel) = 1000
  /\ (stat_of r0, cache_hits (state_of r0), cache_misses (state_of r0),
      List.length (provider_log (state_of r0))) = (Some 100, 0, 1, 1%nat)
  /\ (stat_of r1, cache_hits (state_of r1), cache_misses (state_of r1),
      List.length (provider_log (state_of r1))) = (Some 100, 1, 1, 1%nat)
  /\ (stat_of r2, cache_hits (state_of r2), cache_misses (state_of r2),
      List.length (provider_log (state_of r2))) = (Some 101, 1, 2, 2%nat).
Proof. repeat split. Qed.

(** * Further properties of the code *)

(** ** What a call can do *)

Section Outcomes.

Context {K : Kernel}.

Variables (jiffies : Z) (kmalloc : bool) (user_ns : Z).
Variables (path : option struct_path) (stat : option kstat).
Variables (request_mask query_flags : Z) (s : state).

Let res :=
  cached_getattr jiffies kmalloc user_ns path stat request_mask query_flags s.

(** A call ends in one of four ways.  It is rejected and changes nothing.
    It is handed to the original operation, which is called once with the
    caller's arguments, and store and counters stay as they are.  It is
    served from the store: code 0, the hit counter incremented and nothing
    else changed.  Or it misses: the miss counter is incremented, the
    original operation is called once with the caller's arguments and its
    code and kstat are returned, and the store is as before or has one new
    entry in front, the latter only with code 0. *)
Theorem cached_getattr_outcomes :
  res = (s, - EINVAL, stat)
  \/ (exists p buf,
        path = Some p /\ stat = Some buf
        /\ res = delegated user_ns p buf request_mask query_flags s)
  \/ (exists cached,
        res = (set_cache_hits (atomic_inc (cache_hits s)) s, 0, Some cached))
  \/ (exists p buf,
        path = Some p /\ stat = Some buf
        /\ let r :=
             original_getattr (fs s) user_ns p buf request_mask query_flags in
           ret_of res = ret_of r
           /\ stat_of res = Some (stat_of r)
           /\ fs (state_of res) = state_of r
           /\ provider_log (state_of res)
              = provider_log s ++ [mk_call user_ns p request_mask query_flags]
           /\ cache_misses (state_of res) = atomic_inc (cache_misses s)
           /\ cache_hits (state_of res) = cache_hits s
           /\ (cache_list (state_of res) = cache_list s
               \/ ret_of r = 0
                  /\ exists fullpath,
                       get_full_path p MAX_PATH_LEN = Some fullpath
                       /\ cache_list (state_of res)
                          = mk_entry fullpath (stat_of r) jiffies
                            :: cache_list s)).
Proof.
  unfold res, cached_getattr.
  destruct path as [p|]; [|now left].
  destruct stat as [buf|]; [|now left].
  destruct (dentry p) as [d|] eqn:Hd; [|now left].
  destruct (get_full_path p MAX_PATH_LEN) as [fullpath|] eqn:Hp.
  2:{ right; left. exists p, buf. rewrite call_original_eq.
      repeat split. }
  destruct (should_cache_path fullpath) eqn:He; cbn [negb].
  2:{ right; left. exists p, buf. rewrite call_original_eq.
      repeat split. }
  destruct (lookup_loop jiffies fullpath (cache_list s)) as [cached|] eqn:Hl.
  { right; right; left. now exists cached. }
  right; right; right. exists p, buf.
  split; [reflexivity|]. split; [reflexivity|].
  rewrite call_original_eq. cbn [fs set_cache_misses].
  destruct (entry_path_full _ _ Hp) as [_ ->].
  set (r := original_getattr (fs s) user_ns p buf request_mask query_flags).
  cbn zeta.
  destruct (ret_of r =? 0) eqn:Er; cbn [negb].
  - apply Z.eqb_eq in Er.
    destruct kmalloc; cbn [negb]; repeat split; auto.
    right. split; [exact Er|]. now exists fullpath.
  - repeat split; auto.
Qed.

End Outcomes.

(** ** Sweeps and lookups *)

Section Sweeps.

Context {K : Kernel}.

Lemma lookup_after_cleanup_now (now : Z) (fullpath : string)
    (l : list getattr_cache_entry) :
  lookup_loop now fullpath (cleanup_loop now l) = lookup_loop now fullpath l.
Proof.
  induction l as [|e tl IH]; simpl; [reflexivity|].
  destruct (age now e >=? TTL) eqn:E.
  - rewrite entry_hit_stale; [exact IH|].
    rewrite Z.geb_leb in E. apply Z.leb_le in E. lia.
  - simpl. now rewrite IH.
Qed.

Lemma lookup_after_cleanup_later (S now : Z) (fullpath : string)
    (l : list getattr_cache_entry) :
  S <= now ->
  Forall (fun e => entry_timestamp e <= S
                   /\ now - entry_timestamp e < 2 ^ BITS_PER_LONG) l ->
  lookup_loop now fullpath (cleanup_loop S l) = lookup_loop now fullpath l.
Proof.
  intros HS. induction 1 as [|e tl [Hts Hw] _ IH]; simpl; [reflexivity|].
  destruct (age S e >=? TTL) eqn:E.
  - rewrite entry_hit_stale; [exact IH|].
    rewrite Z.geb_leb in E. apply Z.leb_le in E.
    rewrite age_no_wrap in E by lia. rewrite age_no_wrap by lia. lia.
  - simpl. now rewrite IH.
Qed.


(** With the same answers from the lookup loop, a call has the same
    observable outcome. *)
Lemma cached_getattr_same_lookups (jiffies : Z) (kmalloc : bool)
    (user_ns : Z) (path : option struct_path) (stat : option kstat)
    (request_mask query_flags : Z) (s : state)
    (l' : list getattr_cache_entry) :
  (forall fullpath,
     lookup_loop jiffies fullpath l'
     = lookup_loop jiffies fullpath (cache_list s)) ->
  observable (cached_getattr jiffies kmalloc user_ns path stat
                request_mask query_flags (set_cache_list l' s))
  = observable (cached_getattr jiffies kmalloc user_ns path stat
                  request_mask query_flags s).
Proof.
  intros H. unfold cached_getattr.
  destruct path as [p|]; [|reflexivity].
  destruct stat as [buf|]; [|reflexivity].
  destruct (dentry p) as [d|]; [|reflexivity].
  destruct (get_full_path p MAX_PATH_LEN) as [fullpath|].
  2:{ rewrite !call_original_eq. reflexivity. }
  destruct (should_cache_path fullpath); cbn [negb].
  2:{ rewrite !call_original_eq. reflexivity. }
  cbn [cache_list set_cache_list]. rewrite H.
  destruct (lookup_loop jiffies fullpath (cache_list s)); [reflexivity|].
  rewrite !call_original_eq. cbn [fs set_cache_misses set_cache_list].
  set (r := original_getattr (fs s) user_ns p buf request_mask query_flags).
  cbn zeta.
  destruct (negb (ret_of r =? 0)); [reflexivity|].
  destruct (negb kmalloc); reflexivity.
Qed.

(** A sweep that has just run at the time of a call makes no difference to
    what the call returns, to the counters, or to whether and how the
    original operation is called. *)
Theorem sweep_then_call_same_time (jiffies : Z) (kmalloc : bool)
    (user_ns : Z) (path : option struct_path) (stat : option kstat)
    (request_mask query_flags : Z) (s : state) :
  observable (cached_getattr jiffies kmalloc user_ns path stat
                request_mask query_flags (cleanup_cache jiffies s))
  = observable (cached_getattr jiffies kmalloc user_ns path stat
                  request_mask query_flags s).
Proof.
  unfold cleanup_cache. apply cached_getattr_same_lookups.
  intros fullpath. apply lookup_after_cleanup_now.
Qed.

(** The same holds for a sweep at an earlier time [S], as long as no
    timestamp in the store is ahead of [S] and [jiffies] has not wrapped
    around since any of them. *)
Theorem sweep_then_call_later (S now : Z) (kmalloc : bool)
    (user_ns : Z) (path : option struct_path) (stat : option kstat)
    (request_mask query_flags : Z) (s : state) :
  S <= now ->
  Forall (fun e => entry_timestamp e <= S
                   /\ now - entry_timestamp e < 2 ^ BITS_PER_LONG)
    (cache_list s) ->
  observable (cached_getattr now kmalloc user_ns path stat
                request_mask query_flags (cleanup_cache S s))
  = observable (cached_getattr now kmalloc user_ns path stat
                  request_mask query_flags s).
Proof.
  intros HS Hts. unfold cleanup_cache. apply cached_getattr_same_lookups.
  intros fullpath. now apply lookup_after_cleanup_later.
Qed.

End Sweeps.

Lemma sweep_then_call_later_witness :
  observable (cached_getattr (K := Demo.kernel) 1200 true 7
                (Some Demo.nfs_a) (Some 0) 1 0
                (cleanup_cache (K := Demo.kernel) 1100 Demo.aged_store))
  = observable (cached_getattr (K := Demo.kernel) 1200 true 7
                  (Some Demo.nfs_a) (Some 0) 1 0 Demo.aged_store).
Proof.
  apply (sweep_then_call_later (K := Demo.kernel)).
  - discriminate.
  - repeat constructor; discriminate.
Defined.

(** ** After the time to live *)

Section Expiry.

Context {K : Kernel}.


End Expiry.


(** ** What runs preserve *)

Section RunInvariants.

Context {K : Kernel}.

Lemma get_full_path_fits (p : struct_path) (fullpath : string) :
  get_full_path p MAX_PATH_LEN = Some fullpath ->
  Z.of_nat (String.length fullpath) < MAX_PATH_LEN.
Proof.
  unfold get_full_path. intros H.
  destruct (d_path p MAX_PATH_LEN) as [ret|err] eqn:E; [|discriminate].
  injection H as ->. exact (proj2 (d_path_fits _ _ _ E)).
Qed.

(** The log after a call is the log before it, with at most one call
    added. *)
Lemma cached_getattr_log (jiffies : Z) (kmalloc : bool) (user_ns : Z)
    (path : option struct_path) (stat : option kstat)
    (request_mask query_flags : Z) (s : state) :
  let s' :=
    state_of (cached_getattr jiffies kmalloc user_ns path stat
                request_mask query_flags s) in
  provider_log s' = provider_log s
  \/ exists c, provider_log s' = provider_log s ++ [c].
Proof.
  unfold cached_getattr.
  destruct path as [p|]; [|now left].
  destruct stat as [buf|]; [|now left].
  destruct (dentry p) as [d|]; [|now left].
  destruct (get_full_path p MAX_PATH_LEN) as [fullpath|].
  2:{ rewrite call_original_eq. right. eexists. reflexivity. }
  destruct (should_cache_path fullpath); cbn [negb].
  2:{ rewrite call_original_eq. right. eexists. reflexivity. }
  destruct (lookup_loop jiffies fullpath (cache_list s)); [now left|].
  rewrite call_original_eq. cbn [fs set_cache_misses].
  match goal with |- context [negb (?r =? 0)] => destruct (negb (r =? 0)) end;
    [right; eexists; reflexivity|].
  destruct (negb kmalloc); right; eexists; reflexivity.
Qed.

(** Only eligible paths are ever cached, and every cached path lies within
    the path field of its entry: if that holds of the store, and it does
    of the empty store, it holds after any sequence of requests and
    sweeps. *)
Theorem cached_paths_stay_eligible (evs : list event) (s : state) :
  Forall entry_ok (cache_list s) ->
  Forall entry_ok (cache_list (run evs s)).
Proof.
  revert s. induction evs as [|ev evs IH]; intros s Hok; [exact Hok|].
  unfold run. simpl. apply IH.
  destruct ev as [j km ns p st rm qf | j]; cbn [step].
  - fold (state_of (cached_getattr j km ns p st rm qf s)).
    destruct (cached_getattr_keeps_entries j km ns p st rm qf s)
      as [-> | (q & fp & st' & _ & Hp & He & _ & _ & ->)]; [exact Hok|].
    constructor; [|exact Hok].
    unfold entry_ok. cbn [entry_path].
    split; [exact He|]. split.
    + exact (proj1 (entry_path_full _ _ Hp)).
    + exact (get_full_path_fits _ _ Hp).
  - cbn [cleanup_cache set_cache_list cache_list].
    rewrite cleanup_loop_filter. rewrite Forall_forall in *.
    intros e He. apply filter_In in He as [He _]. now apply Hok.
Qed.

(** The store grows by at most one entry per request and is not otherwise
    bounded; the log of calls to the original operation only grows, by at
    most one call per request; a sweep adds to neither. *)
Theorem run_growth (evs : list event) (s : state) :
  (List.length (cache_list (run evs s))
   <= List.length (cache_list s) + count_getattr evs)%nat
  /\ exists added,
       provider_log (run evs s) = provider_log s ++ added
       /\ (List.length added <= count_getattr evs)%nat.
Proof.
  revert s. induction evs as [|ev evs IH]; intros s.
  - split; [simpl; lia|]. exists []. split; [now rewrite app_nil_r|].
    simpl; lia.
  - unfold run. simpl. fold (run evs (step s ev)).
    destruct (IH (step s ev)) as (Hlen & added & Hlog & Hadd).
    destruct ev as [j km ns p st rm qf | j]; unfold count_getattr in *;
      simpl in *.
    + split.
      * destruct (cached_getattr_keeps_entries j km ns p st rm qf s)
          as [E | (q & fp & st' & _ & _ & _ & _ & _ & E)];
          unfold state_of in E; rewrite E in Hlen; simpl in Hlen; lia.
      * destruct (cached_getattr_log j km ns p st rm qf s) as [E | [c E]];
          unfold state_of in E; rewrite E in Hlog.
        -- exists added. split; [exact Hlog | lia].
        -- exists (c :: added). rewrite <- app_assoc in Hlog.
           split; [exact Hlog | simpl; lia].
    + split.
      * rewrite cleanup_loop_filter in Hlen.
        pose proof (filter_length_le (fresh j) (cache_list s)). lia.
      * exists added. split; [exact Hlog | lia].
Qed.

(** Sweeping twice at one time is sweeping once, and two sweeps may be
    taken in either order. *)
Theorem cleanup_cache_idempotent_commutes (a b : Z) (s : state) :
  cleanup_cache a (cleanup_cache a s) = cleanup_cache a s
  /\ cleanup_cache a (cleanup_cache b s) = cleanup_cache b (cleanup_cache a s).
Proof.
  unfold cleanup_cache, set_cache_list. cbn [cache_list cache_hits
    cache_misses fs provider_log].
  rewrite !cleanup_loop_filter. split; f_equal.
  - induction (cache_list s) as [|e tl IH]; simpl; [reflexivity|].
    destruct (fresh a e) eqn:E; simpl; [rewrite E|]; now rewrite ?IH.
  - induction (cache_list s) as [|e tl IH]; simpl; [reflexivity|].
    destruct (fresh a e) eqn:Ea, (fresh b e) eqn:Eb; simpl;
      rewrite ?Ea, ?Eb, ?IH; reflexivity.
Qed.

End RunInvariants.

Lemma cached_paths_stay_eligible_witness :
  Forall (entry_ok (K := Demo.kernel))
    (cache_list (run (K := Demo.kernel) Demo.busy_second Demo.empty_state)).
Proof.
  apply (cached_paths_stay_eligible (K := Demo.kernel)). constructor.
Defined.

(** ** Eligibility *)

Lemma string_append_assoc (a b c : string) :
  ((a ++ b) ++ c = a ++ (b ++ c))%string.
Proof. induction a as [|x a IH]; simpl; [reflexivity | now rewrite IH]. Qed.

(** Eligibility is kept by anything appended to an eligible path, be it a
    further path component or not. *)
Theorem should_cache_path_extension (path suffix : string) :
  should_cache_path path = true ->
  should_cache_path (path ++ suffix) = true.
Proof.
  assert (Hn : Forall (fun p => no_nul p = true) cached_paths)
    by (repeat constructor).
  unfold should_cache_path.
  rewrite !(should_cache_loop_spec _ _ Hn).
  intros (p & Hin & rest & ->).
  exists p. split; [exact Hin|]. exists (rest ++ suffix)%string.
  apply string_append_assoc.
Qed.

Lemma should_cache_path_extension_witness :
  should_cache_path ("/tmp/nfs/a" ++ "/b/c") = true.
Proof. apply should_cache_path_extension. reflexivity. Defined.

(** ** Requests that overlap *)

Section Overlap.

Context {K : Kernel}.

(** Run with nothing in between, the three stretches are
    [cached_getattr]: a request has returned after at most two further
    stretches, with the state, code and kstat of [cached_getattr]. *)
Theorem stretches_make_cached_getattr (jiffies : Z) (kmalloc : bool)
    (user_ns : Z) (path : option struct_path) (stat : option kstat)
    (request_mask query_flags : Z) (s : state) :
  exists s' ret st,
    advance_request kmalloc
      (advance_request kmalloc
         (lookup_phase jiffies user_ns path stat request_mask query_flags s))
    = (s', Returned ret st)
    /\ cached_getattr jiffies kmalloc user_ns path stat
         request_mask query_flags s
       = (s', ret, st).
Proof.
  unfold lookup_phase, cached_getattr.
  destruct path as [p|]; [|now eexists _, _, _].
  destruct stat as [buf|]; [|now eexists _, _, _].
  destruct (dentry p) as [d|]; [|now eexists _, _, _].
  destruct (get_full_path p MAX_PATH_LEN) as [fullpath|].
  2:{ rewrite call_original_eq. now eexists _, _, _. }
  destruct (should_cache_path fullpath); cbn [negb].
  2:{ rewrite call_original_eq. now eexists _, _, _. }
  destruct (lookup_loop jiffies fullpath (cache_list s));
    [now eexists _, _, _|].
  unfold advance_request at 2. cbn [fst snd]. unfold fetch_phase.
  cbn [rq_user_ns rq_path rq_buf rq_request_mask rq_query_flags].
  rewrite call_original_eq. cbn [fs set_cache_misses].
  set (r := original_getattr (fs s) user_ns p buf request_mask query_flags).
  cbn zeta.
  destruct (ret_of r =? 0) eqn:Er; cbn [negb].
  - apply Z.eqb_eq in Er. rewrite Er.
    unfold advance_request, insert_phase. cbn [fst snd rq_fullpath rq_now].
    destruct (negb kmalloc); now eexists _, _, _.
  - now eexists _, _, _.
Qed.

Lemma fetch_phase_eq (rq : request) (s0 : state) :
  fetch_phase rq s0 =
  let r :=
    original_getattr (fs s0) (rq_user_ns rq) (rq_path rq) (rq_buf rq)
      (rq_request_mask rq) (rq_query_flags rq) in
  let s2 :=
    after_original (state_of r)
      (mk_call (rq_user_ns rq) (rq_path rq) (rq_request_mask rq)
         (rq_query_flags rq))
      (set_cache_misses (atomic_inc (cache_misses s0)) s0) in
  if negb (ret_of r =? 0) then (s2, Returned (ret_of r) (Some (stat_of r)))
  else (s2, Fetched rq (stat_of r)).
Proof.
  unfold fetch_phase. rewrite call_original_eq. reflexivity.
Qed.

Variables (j1 j2 ns1 ns2 : Z) (p1 p2 : struct_path) (d1 d2 : Z).
Variables (buf1 buf2 : kstat) (rm1 rm2 qf1 qf2 : Z).
Variables (s : state) (fullpath : string).

Hypothesis Hd1 : dentry p1 = Some d1.
Hypothesis Hd2 : dentry p2 = Some d2.
Hypothesis Hp1 : get_full_path p1 MAX_PATH_LEN = Some fullpath.
Hypothesis Hp2 : get_full_path p2 MAX_PATH_LEN = Some fullpath.
Hypothesis Heligible : should_cache_path fullpath = true.
Hypothesis Hmiss1 : lookup_loop j1 fullpath (cache_list s) = None.
Hypothesis Hmiss2 : lookup_loop j2 fullpath (cache_list s) = None.

Let r1 := original_getattr (fs s) ns1 p1 buf1 rm1 qf1.
Let r2 := original_getattr (state_of r1) ns2 p2 buf2 rm2 qf2.

(** Two requests for one path whose scans both run before either has
    added its entry both miss, both call the original operation and both
    add an entry: the store then holds two entries for the path, the miss
    counter has been incremented twice, and each request returns what its
    own call fetched. *)
Theorem overlapping_misses_insert_twice :
  ret_of r1 = 0 ->
  ret_of r2 = 0 ->
  let a0 := lookup_phase j1 ns1 (Some p1) (Some buf1) rm1 qf1 s in
  let b0 := lookup_phase j2 ns2 (Some p2) (Some buf2) rm2 qf2 (fst a0) in
  let a1 := advance_request true (fst b0, snd a0) in
  let b1 := advance_request true (fst a1, snd b0) in
  let a2 := advance_request true (fst b1, snd a1) in
  let b2 := advance_request true (fst a2, snd b1) in
  snd a2 = Returned 0 (Some (stat_of r1))
  /\ snd b2 = Returned 0 (Some (stat_of r2))
  /\ cache_list (fst b2)
     = mk_entry fullpath (stat_of r2) j2
       :: mk_entry fullpath (stat_of r1) j1 :: cache_list s
  /\ provider_log (fst b2)
     = provider_log s ++ [mk_call ns1 p1 rm1 qf1; mk_call ns2 p2 rm2 qf2]
  /\ cache_misses (fst b2) = atomic_inc (atomic_inc (cache_misses s))
  /\ cache_hits (fst b2) = cache_hits s.
Proof.
  intros Hr1 Hr2 a0 b0 a1 b1 a2 b2.
  assert (Ea0 : a0 = (s, Missed (mk_request j1 ns1 p1 fullpath buf1 rm1 qf1))).
  { unfold a0, lookup_phase. now rewrite Hd1, Hp1, Heligible, Hmiss1. }
  assert (Eb0 : b0 = (s, Missed (mk_request j2 ns2 p2 fullpath buf2 rm2 qf2))).
  { unfold b0, lookup_phase. rewrite Ea0. cbn [fst].
    now rewrite Hd2, Hp2, Heligible, Hmiss2. }
  destruct (entry_path_full _ _ Hp1) as [_ Hcp].
  set (rq1 := mk_request j1 ns1 p1 fullpath buf1 rm1 qf1) in *.
  set (rq2 := mk_request j2 ns2 p2 fullpath buf2 rm2 qf2) in *.
  set (f1 := after_original (state_of r1) (mk_call ns1 p1 rm1 qf1)
               (set_cache_misses (atomic_inc (cache_misses s)) s)).
  set (f2 := after_original (state_of r2) (mk_call ns2 p2 rm2 qf2)
               (set_cache_misses (atomic_inc (cache_misses f1)) f1)).
  assert (Ea1 : a1 = (f1, Fetched rq1 (stat_of r1))).
  { unfold a1. rewrite Ea0, Eb0. unfold advance_request. cbn [fst snd].
    rewrite fetch_phase_eq. cbn [rq_user_ns rq_path rq_buf rq_request_mask
      rq_query_flags rq1]. fold r1. cbn zeta. now rewrite Hr1. }
  assert (Eb1 : b1 = (f2, Fetched rq2 (stat_of r2))).
  { unfold b1. rewrite Ea1, Eb0. unfold advance_request. cbn [fst snd].
    rewrite fetch_phase_eq. cbn [rq_user_ns rq_path rq_buf rq_request_mask
      rq_query_flags rq2]. change (fs f1) with (state_of r1). fold r2.
    cbn zeta. now rewrite Hr2. }
  assert (Ea2 : a2 = (set_cache_list
                        (mk_entry fullpath (stat_of r1) j1 :: cache_list f2) f2,
                      Returned 0 (Some (stat_of r1)))).
  { unfold a2. rewrite Ea1, Eb1. unfold advance_request, insert_phase.
    cbn [fst snd negb rq_fullpath rq_now rq1]. now rewrite Hcp. }
  unfold b2. rewrite Ea2, Eb1. unfold advance_request, insert_phase.
  cbn [fst snd negb rq_fullpath rq_now rq2]. rewrite Hcp.
  repeat split. cbn. now rewrite <- app_assoc.
Qed.

End Overlap.

Lemma overlapping_misses_insert_twice_witness :
  let a0 :=
    lookup_phase (K := Demo.kernel) 5 7 (Some Demo.nfs_a) (Some 0) 1 0
      Demo.empty_state in
  let b0 :=
    lookup_phase (K := Demo.kernel) 6 8 (Some Demo.nfs_a) (Some 0) 1 0
      (fst a0) in
  let a1 := advance_request true (fst b0, snd a0) in
  let b1 := advance_request true (fst a1, snd b0) in
  let a2 := advance_request true (fst b1, snd a1) in
  let b2 := advance_request true (fst a2, snd b1) in
  snd a2 = Returned (K := Demo.kernel) 0 (Some 100)
  /\ snd b2 = Returned (K := Demo.kernel) 0 (Some 101)
  /\ cache_list (fst b2)
     = mk_entry (K := Demo.kernel) "/tmp/nfs/a" 101 6
       :: mk_entry (K := Demo.kernel) "/tmp/nfs/a" 100 5 :: []
  /\ provider_log (fst b2)
     = [] ++ [mk_call 7 Demo.nfs_a 1 0; mk_call 8 Demo.nfs_a 1 0]
  /\ cache_misses (fst b2) = atomic_inc (atomic_inc 0)
  /\ cache_hits (fst b2) = 0.
Proof.
  apply (overlapping_misses_insert_twice (K := Demo.kernel) 5 6 7 8
           Demo.nfs_a Demo.nfs_a 1 1 0 0 1 1 0 0 Demo.empty_state
           "/tmp/nfs/a");
    reflexivity.
Defined.

(** ** Loading, running and unloading *)

Section Loading.

Context {K : Kernel}.

Variable V : Vfs.

Lemma hook_loop_keeps_hook (paths : list string)
    (f : Z -> option iops_ptr) (inode : Z) :
  f inode = Some cached_iops_addr ->
  hook_loop V paths f inode = Some cached_iops_addr.
Proof.
  revert f. induction paths as [|name rest IH]; intros f Hf; [exact Hf|].
  simpl. apply IH.
  destruct (kern_path V name) as [dentry|]; [|exact Hf].
  destruct (d_inode V dentry) as [i|]; [|exact Hf].
  unfold store_i_op. now destruct (inode =? i).
Qed.

Lemma hook_loop_hooked (paths : list string)
    (f : Z -> option iops_ptr) (inode : Z) :
  (exists name dentry,
     In name paths /\ kern_path V name = inl dentry
     /\ d_inode V dentry = Some inode) ->
  hook_loop V paths f inode = Some cached_iops_addr.
Proof.
  revert f. induction paths as [|name rest IH];
    intros f (n & dentry & Hin & Hk & Hi); [destruct Hin|].
  simpl. destruct Hin as [<- | Hin].
  - rewrite Hk, Hi. apply hook_loop_keeps_hook.
    unfold store_i_op. now rewrite Z.eqb_refl.
  - apply IH. now exists n, dentry.
Qed.

Lemma hook_loop_other (paths : list string)
    (f : Z -> option iops_ptr) (inode : Z) :
  ~ (exists name dentry,
       In name paths /\ kern_path V name = inl dentry
       /\ d_inode V dentry = Some inode) ->
  hook_loop V paths f inode = f inode.
Proof.
  revert f. induction paths as [|name rest IH]; intros f Hno; [reflexivity|].
  simpl. rewrite IH.
  - destruct (kern_path V name) as [dentry|] eqn:Hk; [|reflexivity].
    destruct (d_inode V dentry) as [i|] eqn:Hi; [|reflexivity].
    unfold store_i_op. destruct (Z.eqb_spec inode i) as [->|]; [|reflexivity].
    exfalso. apply Hno. exists name, dentry. simpl. auto.
  - intros (n & dentry & Hin & Hk & Hi). apply Hno.
    exists n, dentry. simpl. auto.
Qed.

(** When [getattr_cache_init] fails it has replaced no inode operations,
    queued no work and left no live workqueue of its own behind; the store
    and the counters are untouched.  Its code is that of [kern_path] for
    [/codebase], [-EINVAL] or, when the workqueue cannot be created,
    [-ENOMEM]. *)
Theorem getattr_cache_init_failure (create_workqueue : bool) (m : module) :
  let r := getattr_cache_init V create_workqueue m in
  snd r <> 0 ->
  i_op (fst r) = i_op m
  /\ cleanup_work (fst r) = cleanup_work m
  /\ core (fst r) = core m
  /\ (cleanup_workqueue (fst r) = wq_live -> cleanup_workqueue m = wq_live)
  /\ (kern_path V "/codebase" = inr (snd r)
      \/ snd r = - EINVAL
      \/ snd r = - ENOMEM /\ create_workqueue = false).
Proof.
  unfold getattr_cache_init.
  destruct (kern_path V "/codebase") as [dentry|e].
  2:{ intros _. repeat split; auto. }
  cbn [nfs_sb set_nfs_sb].
  destruct (root_inode V (d_sb V dentry)) as [root|].
  2:{ intros _. repeat split; auto. }
  destruct create_workqueue; cbn [negb].
  2:{ intros _. repeat split; auto. discriminate. }
  cbn [original_iops set_original_iops i_op set_cleanup_workqueue set_nfs_sb].
  destruct (i_op m root) as [orig|].
  - cbn [snd]. intros H. now contradiction H.
  - intros _. repeat split; auto. discriminate.
Qed.

Variables (create_workqueue : bool) (m : module).
Variables (dentry root : Z) (orig : iops_ptr).

Hypothesis Hcodebase : kern_path V "/codebase" = inl dentry.
Hypothesis Hroot : root_inode V (d_sb V dentry) = Some root.
Hypothesis Hcreate : create_workqueue = true.
Hypothesis Horig : i_op m root = Some orig.

Let loaded := fst (getattr_cache_init V create_workqueue m).

Lemma loaded_eq :
  getattr_cache_init V create_workqueue m
  = (mk_module (core m) (d_sb V dentry) (Some orig) (Some orig) wq_live
       (Some (msecs_to_jiffies CLEANUP_INTERVAL_MS))
       (store_i_op root (Some cached_iops_addr)
          (hook_loop V cached_paths (i_op m))),
     0).
Proof.
  unfold getattr_cache_init. rewrite Hcodebase. cbn [nfs_sb set_nfs_sb].
  rewrite Hroot, Hcreate. cbn [negb].
  cbn [original_iops set_original_iops i_op set_cleanup_workqueue set_nfs_sb].
  rewrite Horig. reflexivity.
Qed.

(** When [/codebase] resolves to a mount with a root inode that has an
    operations table, and the workqueue can be created,
    [getattr_cache_init] returns 0, whether or not any configured path
    resolves.  It remembers the root's table, points the root inode and
    the inode of each configured path that resolves at [cached_iops],
    leaves every other inode alone, and queues the sweep with the delay
    of [CLEANUP_INTERVAL_MS]. *)
Theorem getattr_cache_init_success :
  snd (getattr_cache_init V create_workqueue m) = 0
  /\ original_iops loaded = Some orig
  /\ cached_iops loaded = Some orig
  /\ cleanup_workqueue loaded = wq_live
  /\ cleanup_work loaded = Some (msecs_to_jiffies CLEANUP_INTERVAL_MS)
  /\ core loaded = core m
  /\ i_op loaded root = Some cached_iops_addr
  /\ (forall inode, hooked_by_path V inode ->
        i_op loaded inode = Some cached_iops_addr)
  /\ (forall inode, inode <> root -> ~ hooked_by_path V inode ->
        i_op loaded inode = i_op m inode).
Proof.
  unfold loaded. rewrite loaded_eq. cbn [fst snd original_iops cached_iops
    cleanup_workqueue cleanup_work core i_op].
  repeat split.
  - unfold store_i_op. now rewrite Z.eqb_refl.
  - intros inode Hh. unfold store_i_op.
    destruct (inode =? root); [reflexivity|]. now apply hook_loop_hooked.
  - intros inode Hne Hh. unfold store_i_op.
    destruct (Z.eqb_spec inode root) as [|_]; [contradiction|].
    now apply hook_loop_other.
Qed.

(** While the module is loaded the work stays queued and the globals set
    by [getattr_cache_init] stay as they are; every expiry of the timer
    performs the sweep, so that the store and counters develop as under
    [run]. *)
Lemma module_run_loaded (evs : list event) (m0 : module) :
  cleanup_work m0 = Some (msecs_to_jiffies CLEANUP_INTERVAL_MS) ->
  let m' := module_run evs m0 in
  cleanup_work m' = Some (msecs_to_jiffies CLEANUP_INTERVAL_MS)
  /\ core m' = run evs (core m0)
  /\ nfs_sb m' = nfs_sb m0
  /\ original_iops m' = original_iops m0
  /\ cached_iops m' = cached_iops m0
  /\ cleanup_workqueue m' = cleanup_workqueue m0
  /\ i_op m' = i_op m0.
Proof.
  revert m0. induction evs as [|ev evs IH]; intros m0 Hw; [now repeat split|].
  unfold module_run, run. simpl.
  fold (module_run evs (module_step m0 ev)). fold (run evs (step (core m0) ev)).
  assert (Hs : cleanup_work (module_step m0 ev)
               = Some (msecs_to_jiffies CLEANUP_INTERVAL_MS)
               /\ core (module_step m0 ev) = step (core m0) ev
               /\ nfs_sb (module_step m0 ev) = nfs_sb m0
               /\ original_iops (module_step m0 ev) = original_iops m0
               /\ cached_iops (module_step m0 ev) = cached_iops m0
               /\ cleanup_workqueue (module_step m0 ev) = cleanup_workqueue m0
               /\ i_op (module_step m0 ev) = i_op m0).
  { destruct ev as [j km ns p st rm qf | j]; cbn [module_step step].
    - now repeat split.
    - unfold run_cleanup_work. rewrite Hw. now repeat split. }
  destruct Hs as (H1 & H2 & H3 & H4 & H5 & H6 & H7).
  destruct (IH _ H1) as (I1 & I2 & I3 & I4 & I5 & I6 & I7).
  cbn zeta. rewrite I1, I2, I3, I4, I5, I6, I7, H2, H3, H4, H5, H6, H7.
  now repeat split.
Qed.

Theorem sweep_stays_scheduled (evs : list event) :
  let m' := module_run evs loaded in
  cleanup_work m' = Some (msecs_to_jiffies CLEANUP_INTERVAL_MS)
  /\ cleanup_workqueue m' = wq_live
  /\ core m' = run evs (core m).
Proof.
  assert (Hw : cleanup_work loaded
               = Some (msecs_to_jiffies CLEANUP_INTERVAL_MS))
    by (unfold loaded; now rewrite loaded_eq).
  destruct (module_run_loaded evs loaded Hw) as (H1 & H2 & _ & _ & _ & H6 & _).
  cbn zeta. rewrite H1, H2, H6. unfold loaded. rewrite loaded_eq.
  now repeat split.
Qed.

Lemma exit_loop_empty (l : list getattr_cache_entry) : exit_loop l = [].
Proof. induction l as [|e tl IH]; [reflexivity | exact IH]. Qed.

Lemma loaded_fst :
  loaded
  = mk_module (core m) (d_sb V dentry) (Some orig) (Some orig) wq_live
      (Some (msecs_to_jiffies CLEANUP_INTERVAL_MS))
      (store_i_op root (Some cached_iops_addr)
         (hook_loop V cached_paths (i_op m))).
Proof. unfold loaded. now rewrite loaded_eq. Qed.

Lemma unloaded_eq (evs : list event) :
  getattr_cache_exit V (module_run evs loaded)
  = mk_module (set_cache_list [] (run evs (core m))) (d_sb V dentry)
      (Some orig) (Some orig) wq_destroyed None
      (store_i_op root (Some orig)
         (store_i_op root (Some cached_iops_addr)
            (hook_loop V cached_paths (i_op m)))).
Proof.
  assert (Hw : cleanup_work loaded
               = Some (msecs_to_jiffies CLEANUP_INTERVAL_MS))
    by now rewrite loaded_fst.
  destruct (module_run_loaded evs loaded Hw)
    as (H1 & H2 & H3 & H4 & H5 & H6 & H7).
  rewrite loaded_fst in H2, H3, H4, H5, H6, H7. rewrite loaded_fst.
  cbn [core nfs_sb original_iops cached_iops cleanup_workqueue i_op]
    in H2, H3, H4, H5, H6, H7.
  unfold getattr_cache_exit. rewrite H6.
  cbn [nfs_sb original_iops set_cleanup_workqueue set_cleanup_work].
  rewrite H3, H4, Hroot.
  unfold set_core, set_i_op, set_cleanup_workqueue, set_cleanup_work.
  cbn [core nfs_sb original_iops cached_iops cleanup_workqueue cleanup_work
         i_op].
  rewrite H2, H5, H7, exit_loop_empty, ?H3, ?H4. reflexivity.
Qed.

(** Unloading after any sequence of requests and sweeps puts the root
    inode's operations back, cancels the work and releases the workqueue,
    and empties the store; the counters keep their values.  A timer expiry
    after that finds no work and does nothing. *)
Theorem unload_restores_root (evs : list event) :
  let before := module_run evs loaded in
  let after := getattr_cache_exit V before in
  i_op after root = i_op m root
  /\ cleanup_work after = None
  /\ cleanup_workqueue after = wq_destroyed
  /\ cache_list (core after) = []
  /\ cache_hits (core after) = cache_hits (core before)
  /\ cache_misses (core after) = cache_misses (core before)
  /\ forall j, module_step after (Cleanup j) = after.
Proof.
  assert (Hw : cleanup_work loaded
               = Some (msecs_to_jiffies CLEANUP_INTERVAL_MS))
    by now rewrite loaded_fst.
  destruct (module_run_loaded evs loaded Hw) as (_ & H2 & _).
  cbn zeta in H2. cbn zeta. rewrite unloaded_eq, H2, loaded_fst.
  cbn [i_op cleanup_work cleanup_workqueue core cache_list cache_hits
         cache_misses set_cache_list].
  split; [|now repeat split].
  unfold store_i_op. rewrite Z.eqb_refl. now rewrite Horig.
Qed.

(** Unloading puts back the root inode only: every other inode keeps the
    operations pointer it had while the module was loaded, so the inode of
    a configured path other than the root still points at [cached_iops]
    after the module is gone. *)
Theorem unload_leaves_path_hooks (evs : list event) :
  let after := getattr_cache_exit V (module_run evs loaded) in
  (forall inode, inode <> root -> i_op after inode = i_op loaded inode)
  /\ (forall inode, inode <> root -> hooked_by_path V inode ->
        i_op after inode = Some cached_iops_addr).
Proof.
  cbn zeta. rewrite unloaded_eq, loaded_fst.
  cbn [i_op]. split.
  - intros inode Hne. unfold store_i_op.
    now destruct (Z.eqb_spec inode root).
  - intros inode Hne Hh. unfold store_i_op.
    destruct (Z.eqb_spec inode root) as [|_]; [contradiction|].
    now apply hook_loop_hooked.
Qed.

End Loading.

Lemma getattr_cache_init_failure_witness :
  let r := getattr_cache_init (K := Demo.kernel) Demo.vfs false Demo.at_boot in
  i_op (fst r) = i_op Demo.at_boot
  /\ cleanup_work (fst r) = cleanup_work Demo.at_boot
  /\ core (fst r) = core Demo.at_boot
  /\ (cleanup_workqueue (fst r) = wq_live ->
      cleanup_workqueue Demo.at_boot = wq_live)
  /\ (kern_path Demo.vfs "/codebase" = inr (snd r)
      \/ snd r = - EINVAL
      \/ snd r = - ENOMEM /\ false = false).
Proof.
  apply (getattr_cache_init_failure (K := Demo.kernel) Demo.vfs false
           Demo.at_boot).
  discriminate.
Defined.

Lemma getattr_cache_init_success_witness :
  let loaded :=
    fst (getattr_cache_init (K := Demo.kernel) Demo.vfs true Demo.at_boot) in
  snd (getattr_cache_init (K := Demo.kernel) Demo.vfs true Demo.at_boot) = 0
  /\ original_iops loaded = Some (kernel_iops 1)
  /\ cached_iops loaded = Some (kernel_iops 1)
  /\ cleanup_workqueue loaded = wq_live
  /\ cleanup_work loaded
     = Some (@msecs_to_jiffies Demo.kernel CLEANUP_INTERVAL_MS)
  /\ core loaded = core Demo.at_boot
  /\ i_op loaded 100 = Some cached_iops_addr
  /\ (forall inode, hooked_by_path Demo.vfs inode ->
        i_op loaded inode = Some cached_iops_addr)
  /\ (forall inode, inode <> 100 -> ~ hooked_by_path Demo.vfs inode ->
        i_op loaded inode = i_op Demo.at_boot inode).
Proof.
  apply (getattr_cache_init_success (K := Demo.kernel) Demo.vfs true
           Demo.at_boot 10 100 (kernel_iops 1));
    reflexivity.
Defined.

Lemma sweep_stays_scheduled_witness :
  let m' :=
    module_run (K := Demo.kernel) Demo.busy_second
      (fst (getattr_cache_init (K := Demo.kernel) Demo.vfs true Demo.at_boot))
  in
  cleanup_work m' = Some (@msecs_to_jiffies Demo.kernel CLEANUP_INTERVAL_MS)
  /\ cleanup_workqueue m' = wq_live
  /\ core m' = run Demo.busy_second (core Demo.at_boot).
Proof.
  apply (sweep_stays_scheduled (K := Demo.kernel) Demo.vfs true
           Demo.at_boot 10 100 (kernel_iops 1));
    reflexivity.
Defined.

Lemma unload_restores_root_witness :
  let before :=
    module_run (K := Demo.kernel) Demo.busy_second
      (fst (getattr_cache_init (K := Demo.kernel) Demo.vfs true Demo.at_boot))
  in
  let after := getattr_cache_exit Demo.vfs before in
  i_op after 100 = i_op Demo.at_boot 100
  /\ cleanup_work after = None
  /\ cleanup_workqueue after = wq_destroyed
  /\ cache_list (core after) = []
  /\ cache_hits (core after) = cache_hits (core before)
  /\ cache_misses (core after) = cache_misses (core before)
  /\ forall j, module_step after (Cleanup j) = after.
Proof.
  apply (unload_restores_root (K := Demo.kernel) Demo.vfs true
           Demo.at_boot 10 100 (kernel_iops 1));
    reflexivity.
Defined.

Lemma unload_leaves_path_hooks_witness :
  let loaded :=
    fst (getattr_cache_init (K := Demo.kernel) Demo.vfs true Demo.at_boot) in
  let after :=
    getattr_cache_exit Demo.vfs
      (module_run (K := Demo.kernel) Demo.busy_second loaded) in
  (forall inode, inode <> 100 -> i_op after inode = i_op loaded inode)
  /\ (forall inode, inode <> 100 -> hooked_by_path Demo.vfs inode ->
        i_op after inode = Some cached_iops_addr).
Proof.
  apply (unload_leaves_path_hooks (K := Demo.kernel) Demo.vfs true
           Demo.at_boot 10 100 (kernel_iops 1));
    reflexivity.
Defined.

(** With the mount of the example, the inode of [/tmp/nfs] has the
    kernel's table before loading and [cached_iops] after unloading. *)
Example tmp_nfs_inode_after_unload :
  let loaded :=
    fst (getattr_cache_init (K := Demo.kernel) Demo.vfs true Demo.at_boot) in
  let after := getattr_cache_exit Demo.vfs loaded in
  hooked_by_path Demo.vfs 200
  /\ i_op Demo.at_boot 200 = Some (kernel_iops 2)
  /\ i_op after 200 = Some cached_iops_addr
  /\ i_op after 100 = Some (kernel_iops 1).
Proof.
  split; [|repeat split].
  exists "/tmp/nfs"%string, 20. repeat split. now left.
Qed.
